(** * Textbook RSA: key generation and the four keyed operations

    A shallow embedding of the JavaScript module (the bundled distribution
    and its ES-module twin) together with the properties of its
    specification.

    Layout: the JavaScript run-time fragment the module needs (values,
    [BigInt] coercion, truthiness, an object heap, promises as outcomes),
    the interfaces of the two external collaborators, the embedding of
    both distribution variants, reference collaborators used to run the
    code, and then the theorems. *)

From Stdlib Require Import ZArith Lia Zdivisibility Zcong.
From Stdlib Require Import Zmod.ZmodInv.
From stdpp Require Import base option list gmap.

#[local] Open Scope Z_scope.

(* ================================================================== *)
(** * 1. JavaScript values                                             *)
(* ================================================================== *)

(** Heap addresses of objects. *)
Definition loc : Type := positive.

(** The JavaScript values that can reach this module through its declared
    types ([bigint], [number], the [null]/[undefined] of optional
    arguments, object references) and booleans.  A [number] is carried by
    its integral value, [VNaN] standing for the one number that is neither
    truthy nor convertible.  Strings and fractional numbers are outside
    this universe. *)
Inductive value : Type :=
| VUndefined
| VNull
| VBool (b : bool)
| VNumber (z : Z)
| VNaN
| VBigInt (z : Z)
| VRef (l : loc).

(** Requests sent to a collaborator that may fail or consume entropy. *)
Inductive call : Type :=
| CallPrime (bits : Z)
| CallModInv (a m : Z)
| CallModPow (b e n : Z).

(** What a [throw] (or a rejected promise) carries. *)
Inductive error : Type :=
| TypeError
| RangeError
| SyntaxError
| Failed (c : call).

(** The three ways a call can end: a value is returned (the promise
    resolves), an exception propagates (the promise rejects), or the
    computation is still running when the observer stops looking. *)
Inductive outcome (A : Type) : Type :=
| Ok (a : A)
| Throw (err : error)
| Pending.
Arguments Ok {A} a.
Arguments Throw {A} err.
Arguments Pending {A}.

(** [ToBoolean], as used by the conditional operator. *)
Definition truthy (v : value) : bool :=
  match v with
  | VUndefined | VNull | VNaN => false
  | VBool b => b
  | VNumber z | VBigInt z => negb (z =? 0)
  | VRef _ => true
  end.

(** The [BigInt(v)] conversion function.  A reference stands for an
    instance of one of the module's two classes, the only objects of the
    heap: it has no [valueOf] or [toString] of its own, so it is read as
    the string [object Object], which is a [SyntaxError]. *)
Definition BigInt (v : value) : outcome Z :=
  match v with
  | VUndefined | VNull => Throw TypeError
  | VBool b => Ok (if b then 1 else 0)
  | VNumber z => Ok z
  | VNaN => Throw RangeError
  | VBigInt z => Ok z
  | VRef _ => Throw SyntaxError
  end.

(** A parameter default [x = dflt]: it replaces [undefined] only. *)
Definition default_param (dflt v : value) : value :=
  match v with
  | VUndefined => dflt
  | _ => v
  end.

(* ================================================================== *)
(** * 2. Object layouts                                                *)
(* ================================================================== *)

Module PublicKey.
(** The own properties of a [PublicKey] instance. *)
Record t : Type := make { e : Z; n : Z }.
End PublicKey.

Module PrivateKey.
(** The own properties of a [PrivateKey] instance; [None] is [null]. *)
Record t : Type := make {
  d : Z;
  _p : option Z;
  _q : option Z;
  _phi : option Z;
  publicKey : value
}.
End PrivateKey.

Module KeyPair.
(** The object literal [{ publicKey, privateKey }]: two references. *)
Record t : Type := make { publicKey : loc; privateKey : loc }.
End KeyPair.

Inductive object : Type :=
| OPublicKey (k : PublicKey.t)
| OPrivateKey (k : PrivateKey.t).

(* ================================================================== *)
(** * 3. External collaborators                                        *)
(* ================================================================== *)

(** The package the module imports its arithmetic from is not part of the
    repository: its functions are parameters of the embedding, split the
    way the specification splits them.  [modInv] and [modPow] may fail
    ([None]); [bitLength] returns a [number], the other results are
    [bigint]s. *)
Module Provider.

Class BigIntegerProvider : Type := {
  bitLength : Z → Z;
  gcd : Z → Z → Z;
  modInv : Z → Z → option Z;
  modPow : Z → Z → Z → option Z
}.

(** [prime bits] draws from an entropy state. *)
Class PrimeSource : Type := {
  entropy : Type;
  prime : Z → entropy → option Z * entropy
}.

End Provider.

(* ================================================================== *)
(** * 4. Worlds and computations                                       *)
(* ================================================================== *)

Section Runtime.
Context `{PS : Provider.PrimeSource}.

(** Program state: the object heap and the entropy of the prime
    source.  [trace] is ghost instrumentation: the requests made so far
    to the fallible collaborators, oldest first. *)
Record world : Type := World {
  heap : gmap loc object;
  entropy : Provider.entropy;
  trace : list call
}.

Definition M (A : Type) : Type := world → outcome A * world.

Definition ret {A} (a : A) : M A := λ w, (Ok a, w).
Definition throw {A} (err : error) : M A := λ w, (Throw err, w).
Definition pending {A} : M A := λ w, (Pending, w).

Definition bind {A B} (c : M A) (k : A → M B) : M B :=
  λ w, match c w with
       | (Ok a, w') => k a w'
       | (Throw err, w') => (Throw err, w')
       | (Pending, w') => (Pending, w')
       end.

(** A pure conversion that may throw. *)
Definition lift {A} (o : outcome A) : M A := λ w, (o, w).

Definition log (c : call) : M unit :=
  λ w, (Ok tt, World (heap w) (entropy w) (trace w ++ [c])).

(** [new]: the object is placed at an address the heap does not use.
    A constructor's assignments to [this] are gathered and the object is
    placed when the constructor returns: if one of its coercions throws,
    the half-built object is unreachable and nothing is placed. *)
Definition alloc (o : object) : M loc :=
  λ w, let l := fresh (dom (heap w)) in
       (Ok l, World (<[l := o]> (heap w)) (entropy w) (trace w)).

(** Dereferencing.  References only come from [alloc], so the failure
    case is not reachable by the module's own objects. *)
Definition load (l : loc) : M object :=
  λ w, match heap w !! l with
       | Some o => (Ok o, w)
       | None => (Throw TypeError, w)
       end.

(** A call to a fallible collaborator function: its failure propagates
    to the caller. *)
Definition invoke {A} (c : call) (r : option A) : M A :=
  bind (log c) (λ _, match r with
                      | Some a => ret a
                      | None => throw (Failed c)
                      end).

(** [await] on the promise of a collaborator that draws entropy. *)
Definition await {A} (c : call)
    (r : Provider.entropy → option A * Provider.entropy) : M A :=
  bind (log c) (λ _ w,
    let (o, s) := r (entropy w) in
    (match o with Some a => Ok a | None => Throw (Failed c) end,
     World (heap w) s (trace w))).

(** [do body while (cond)], the loop variables being what the body
    leaves behind.  [fuel] bounds how many passes the observer waits
    for, not the loop: when it runs out the loop is still [Pending]. *)
Fixpoint do_while {A} (fuel : nat) (body : M A) (cond : A → bool) : M A :=
  match fuel with
  | O => pending
  | S fuel' =>
      bind body (λ a, if cond a then do_while fuel' body cond else ret a)
  end.

(** The receiver [this] of a [PublicKey] method.  Methods are invoked on
    instances of their class; any other receiver is outside the declared
    use and is rejected. *)
Definition this_PublicKey (this : loc) : M PublicKey.t :=
  bind (load this) (λ o,
    match o with
    | OPublicKey k => ret k
    | OPrivateKey _ => throw TypeError
    end).

(** The receiver [this] of a [PrivateKey] method, likewise. *)
Definition this_PrivateKey (this : loc) : M PrivateKey.t :=
  bind (load this) (λ o,
    match o with
    | OPrivateKey k => ret k
    | OPublicKey _ => throw TypeError
    end).

(** The property read [v.n] on the value held in [this.publicKey], for
    the values the constructor is documented to receive: a reference to
    a [PublicKey] gives its [n], and reading a property of [null] or
    [undefined] is a [TypeError].  These three cases are the code's.
    Any other value (a [PrivateKey] instance, whose own [n] getter the
    code would call, or a primitive, whose [.n] is [undefined]) is
    outside the declared use and is not modelled: it is rejected here,
    and no statement below is about it. *)
Definition get_n (v : value) : M Z :=
  match v with
  | VRef l => bind (this_PublicKey l) (λ pk, ret (PublicKey.n pk))
  | _ => throw TypeError
  end.

End Runtime.

Arguments world {PS}.
Arguments M {PS} A.

Declare Scope js_scope.
Delimit Scope js_scope with js.
Notation "x <- c ;; k" := (bind c (λ x, k))
  (at level 100, c at next level, right associativity) : js_scope.
Notation "c ;; k" := (bind c (λ _, k))
  (at level 100, right associativity) : js_scope.

(** The imported package as the JavaScript code sees it. *)
Module crypto.
Section Bindings.
Context `{BIP : Provider.BigIntegerProvider} `{PS : Provider.PrimeSource}.

Definition bitLength (a : Z) : Z := Provider.bitLength a.
Definition gcd (a b : Z) : Z := Provider.gcd a b.
Definition modInv (a n : Z) : M Z :=
  invoke (CallModInv a n) (Provider.modInv a n).
Definition modPow (b e n : Z) : M Z :=
  invoke (CallModPow b e n) (Provider.modPow b e n).
(** An [async] function: callers [await] it. *)
Definition prime (bits : Z) : M Z :=
  await (CallPrime bits) (Provider.prime bits).
End Bindings.
End crypto.

(* ================================================================== *)
(** * 5. The bundled distribution (src/unnamed/part_000) *)
(* ================================================================== *)

Module Bundled.
(** [import { bitLength, gcd, prime, modInv, modPow } from ...] *)
Import crypto.

Section Code.
Context `{BIP : Provider.BigIntegerProvider} `{PS : Provider.PrimeSource}.
Open Scope js_scope.

(** [BigInt(1)] and [BigInt(65537)] *)
Definition _ONE : Z := 1.
Definition _E : Z := 65537.

(** [constructor(e, n)] *)
Definition PublicKey_new (e n : value) : M loc :=
  e' <- lift (BigInt e) ;;
  n' <- lift (BigInt n) ;;
  alloc (OPublicKey (PublicKey.make e' n')).

(** [get bitLength()] *)
Definition PublicKey_bitLength (this : loc) : M Z :=
  k <- this_PublicKey this ;;
  ret (bitLength (PublicKey.n k)).

Definition PublicKey_encrypt (this : loc) (m : Z) : M Z :=
  k <- this_PublicKey this ;;
  modPow m (PublicKey.e k) (PublicKey.n k).

Definition PublicKey_verify (this : loc) (s : Z) : M Z :=
  k <- this_PublicKey this ;;
  modPow s (PublicKey.e k) (PublicKey.n k).

(** [(x) ? BigInt(x) : null] *)
Definition truthy_BigInt (x : value) : M (option Z) :=
  if truthy x then (z <- lift (BigInt x) ;; ret (Some z)) else ret None.

(** [constructor(d, p = null, q = null, phi = null, publicKey)] *)
Definition PrivateKey_new (d p q phi publicKey : value) : M loc :=
  let p := default_param VNull p in
  let q := default_param VNull q in
  let phi := default_param VNull phi in
  d' <- lift (BigInt d) ;;
  p' <- truthy_BigInt p ;;
  q' <- truthy_BigInt q ;;
  phi' <- truthy_BigInt phi ;;
  alloc (OPrivateKey (PrivateKey.make d' p' q' phi' publicKey)).

(** [get bitLength()] *)
Definition PrivateKey_bitLength (this : loc) : M Z :=
  k <- this_PrivateKey this ;;
  n <- get_n (PrivateKey.publicKey k) ;;
  ret (bitLength n).

(** [get n()] *)
Definition PrivateKey_n (this : loc) : M Z :=
  k <- this_PrivateKey this ;;
  get_n (PrivateKey.publicKey k).

Definition PrivateKey_sign (this : loc) (m : Z) : M Z :=
  k <- this_PrivateKey this ;;
  n <- get_n (PrivateKey.publicKey k) ;;
  modPow m (PrivateKey.d k) n.

Definition PrivateKey_decrypt (this : loc) (e : Z) : M Z :=
  k <- this_PrivateKey this ;;
  n <- get_n (PrivateKey.publicKey k) ;;
  modPow e (PrivateKey.d k) n.

(** The body of the [do ... while] loop of [generateRandomKeys]: one
    pass, and the values of [p, q, n, phi] it leaves behind. *)
Definition sample (bitLength1 : Z) : M (Z * Z * Z * Z) :=
  p <- prime (bitLength1 / 2 + 1) ;;
  q <- prime (bitLength1 / 2) ;;
  let n := p * q in
  let phi := (p - _ONE) * (q - _ONE) in
  ret (p, q, n, phi).

(** The condition of that loop. *)
Definition again (bitLength1 : Z) (r : Z * Z * Z * Z) : bool :=
  let '(p, q, n, phi) := r in
  (p =? q) || negb (bitLength n =? bitLength1)
           || negb (gcd phi _E =? _ONE).

(** The [async] function.  Its argument is an integral [number], [None]
    when it is omitted; [Math.floor(x / 2)] is then integer division.  The
    promise resolves ([Ok]), rejects ([Throw]) or is still [Pending] when
    [fuel] passes of the loop have been watched. *)
Definition generateRandomKeys (fuel : nat) (bitLength1 : option Z)
    : M KeyPair.t :=
  let bitLength1 := default 2048 bitLength1 in
  r <- do_while fuel (sample bitLength1) (again bitLength1) ;;
  let '(p, q, n, phi) := r in
  d <- modInv _E phi ;;
  publicKey <- PublicKey_new (VBigInt _E) (VBigInt n) ;;
  privateKey <- PrivateKey_new (VBigInt d) (VBigInt p) (VBigInt q)
                               (VBigInt phi) (VRef publicKey) ;;
  ret (KeyPair.make publicKey privateKey).

End Code.
End Bundled.

(* ================================================================== *)
(** * 6. The ES-module distribution (second part of src/types/rsa.d.ts) *)
(* ================================================================== *)

Module Namespaced.
(** [import * as crypto from ...]: every use is qualified. *)

Section Code.
Context `{BIP : Provider.BigIntegerProvider} `{PS : Provider.PrimeSource}.
Open Scope js_scope.

(** [BigInt(1)] and [BigInt(65537)] *)
Definition _ONE : Z := 1.
Definition _E : Z := 65537.

(** [constructor(e, n)] *)
Definition PublicKey_new (e n : value) : M loc :=
  e' <- lift (BigInt e) ;;
  n' <- lift (BigInt n) ;;
  alloc (OPublicKey (PublicKey.make e' n')).

(** [get bitLength()] *)
Definition PublicKey_bitLength (this : loc) : M Z :=
  k <- this_PublicKey this ;;
  ret (crypto.bitLength (PublicKey.n k)).

Definition PublicKey_encrypt (this : loc) (m : Z) : M Z :=
  k <- this_PublicKey this ;;
  crypto.modPow m (PublicKey.e k) (PublicKey.n k).

Definition PublicKey_verify (this : loc) (s : Z) : M Z :=
  k <- this_PublicKey this ;;
  crypto.modPow s (PublicKey.e k) (PublicKey.n k).

(** [(x) ? BigInt(x) : null] *)
Definition truthy_BigInt (x : value) : M (option Z) :=
  if truthy x then (z <- lift (BigInt x) ;; ret (Some z)) else ret None.

(** [constructor(d, p = null, q = null, phi = null, publicKey)] *)
Definition PrivateKey_new (d p q phi publicKey : value) : M loc :=
  let p := default_param VNull p in
  let q := default_param VNull q in
  let phi := default_param VNull phi in
  d' <- lift (BigInt d) ;;
  p' <- truthy_BigInt p ;;
  q' <- truthy_BigInt q ;;
  phi' <- truthy_BigInt phi ;;
  alloc (OPrivateKey (PrivateKey.make d' p' q' phi' publicKey)).

(** [get bitLength()] *)
Definition PrivateKey_bitLength (this : loc) : M Z :=
  k <- this_PrivateKey this ;;
  n <- get_n (PrivateKey.publicKey k) ;;
  ret (crypto.bitLength n).

(** [get n()] *)
Definition PrivateKey_n (this : loc) : M Z :=
  k <- this_PrivateKey this ;;
  get_n (PrivateKey.publicKey k).

Definition PrivateKey_sign (this : loc) (m : Z) : M Z :=
  k <- this_PrivateKey this ;;
  n <- get_n (PrivateKey.publicKey k) ;;
  crypto.modPow m (PrivateKey.d k) n.

Definition PrivateKey_decrypt (this : loc) (e : Z) : M Z :=
  k <- this_PrivateKey this ;;
  n <- get_n (PrivateKey.publicKey k) ;;
  crypto.modPow e (PrivateKey.d k) n.

(** The body of the [do ... while] loop of [generateRandomKeys]: one
    pass, and the values of [p, q, n, phi] it leaves behind. *)
Definition sample (bitLength : Z) : M (Z * Z * Z * Z) :=
  p <- crypto.prime (bitLength / 2 + 1) ;;
  q <- crypto.prime (bitLength / 2) ;;
  let n := p * q in
  let phi := (p - _ONE) * (q - _ONE) in
  ret (p, q, n, phi).

(** The condition of that loop. *)
Definition again (bitLength : Z) (r : Z * Z * Z * Z) : bool :=
  let '(p, q, n, phi) := r in
  (p =? q) || negb (crypto.bitLength n =? bitLength)
           || negb (crypto.gcd phi _E =? _ONE).

(** The [async] function, as in the bundled variant. *)
Definition generateRandomKeys (fuel : nat) (bitLength : option Z)
    : M KeyPair.t :=
  let bitLength := default 2048 bitLength in
  r <- do_while fuel (sample bitLength) (again bitLength) ;;
  let '(p, q, n, phi) := r in
  d <- crypto.modInv _E phi ;;
  publicKey <- PublicKey_new (VBigInt _E) (VBigInt n) ;;
  privateKey <- PrivateKey_new (VBigInt d) (VBigInt p) (VBigInt q)
                               (VBigInt phi) (VRef publicKey) ;;
  ret (KeyPair.make publicKey privateKey).

End Code.
End Namespaced.

(* ================================================================== *)
(** * 7. The specification's wording                                   *)
(* ================================================================== *)

(** Contracts of the collaborators, as section 6 of the specification
    states them. *)
Module Contract.
Section Contracts.
Context `{BIP : Provider.BigIntegerProvider} `{PS : Provider.PrimeSource}.

(** Modelled from the spec: [bitLength(x)] is the number of bits in
    the binary representation of [x]. *)
Definition bitLength_counts_bits : Prop :=
  ∀ x, 0 < x → Provider.bitLength x = Z.log2 x + 1.

(** Modelled from the spec: [gcd(a, b)] is the greatest common
    divisor. *)
Definition gcd_is_gcd : Prop :=
  ∀ a b, Provider.gcd a b = Z.gcd a b.

(** Modelled from the spec: [modInv(a, m)] is the modular inverse of
    [a] mod [m]; it fails if [gcd(a, m) ≠ 1]. *)
Definition modInv_inverts : Prop :=
  (∀ a m, Z.gcd a m ≠ 1 → Provider.modInv a m = None) ∧
  (∀ a m, 0 < m → Z.gcd a m = 1 →
     ∃ d, Provider.modInv a m = Some d ∧ 0 ≤ d < m ∧
          (a * d) `mod` m = 1 `mod` m).

(** Modelled from the spec: [modPow(base, exponent, modulus)] is
    modular exponentiation. *)
Definition modPow_exponentiates : Prop :=
  ∀ b e n, 0 ≤ e → 0 < n → Provider.modPow b e n = Some (b ^ e `mod` n).

(** Modelled from the spec: [probablePrime(bits)] returns an integer
    having exactly [bits] significant bits. *)
Definition prime_has_bits : Prop :=
  ∀ bits s v s', 0 < bits → Provider.prime bits s = (Some v, s') →
    2 ^ (bits - 1) ≤ v < 2 ^ bits.

(** The assumption that the probable primes are genuine primes. *)
Definition prime_is_prime : Prop :=
  ∀ bits s v s', Provider.prime bits s = (Some v, s') → Z.prime v.

End Contracts.
End Contract.

(** The key generator as section 4.1 of the specification words it. *)
Module KeyGenerator.
Section Algorithm.
Context `{BIP : Provider.BigIntegerProvider} `{PS : Provider.PrimeSource}.
Open Scope js_scope.

(** The public exponent, a fixed constant. *)
Definition e : Z := 65537.

(** Steps 1 to 3: sample [p] of bit length [floor(bitLength/2) + 1],
    sample [q] of bit length [floor(bitLength/2)], compute [n = p * q]
    and [φ = (p-1)(q-1)]. *)
Definition steps_1_3 (bitLength : Z) : M (Z * Z * Z * Z) :=
  p <- crypto.prime (bitLength / 2 + 1) ;;
  q <- crypto.prime (bitLength / 2) ;;
  ret (p, q, p * q, (p - 1) * (q - 1)).

(** Step 4, the gate: ALL of [p ≠ q], [bitLength(n) == bitLength]
    and [gcd(φ, e) == 1]. *)
Definition gate (bitLength : Z) (r : Z * Z * Z * Z) : bool :=
  let '(p, q, n, phi) := r in
  negb (p =? q) && (crypto.bitLength n =? bitLength)
                && (crypto.gcd phi e =? 1).

(** "Repeat steps 1-3 until ..." *)
Fixpoint repeat_until {A} (fuel : nat) (steps : M A) (until : A → bool)
    : M A :=
  match fuel with
  | O => pending
  | S fuel' =>
      a <- steps ;; if until a then ret a else repeat_until fuel' steps until
  end.

(** Steps 1 to 5: the key material [(p, q, n, φ, d)]. *)
Definition steps_1_5 (fuel : nat) (bitLength : option Z)
    : M (Z * Z * Z * Z * Z) :=
  let bitLength := default 2048 bitLength in
  r <- repeat_until fuel (steps_1_3 bitLength) (gate bitLength) ;;
  let '(p, q, n, phi) := r in
  d <- crypto.modInv e phi ;;
  ret (p, q, n, phi, d).

End Algorithm.
End KeyGenerator.

(* ================================================================== *)
(** * 8. Vocabulary of the statements                                  *)
(* ================================================================== *)

Section Vocabulary.
Context `{BIP : Provider.BigIntegerProvider} `{PS : Provider.PrimeSource}.

(** Steps 6 and 7 as the code performs them: the two constructor calls
    and the returned pair. *)
Definition construct (m : Z * Z * Z * Z * Z) : M KeyPair.t :=
  let '(p, q, n, phi, d) := m in
  (publicKey <- Bundled.PublicKey_new (VBigInt Bundled._E) (VBigInt n) ;;
   privateKey <- Bundled.PrivateKey_new (VBigInt d) (VBigInt p) (VBigInt q)
                   (VBigInt phi) (VRef publicKey) ;;
   ret (KeyPair.make publicKey privateKey))%js.

(** The world left by [k] passes of the sampling loop that all completed
    and were all rejected, if the first [k] passes went that way. *)
Fixpoint after_rejected (k : nat) (B : Z) (w : world) : option world :=
  match k with
  | O => Some w
  | S k' =>
      match Bundled.sample B w with
      | (Ok r, w1) =>
          if Bundled.again B r then after_rejected k' B w1 else None
      | _ => None
      end
  end.

(** The requests [k] passes of the loop send to the prime source. *)
Definition prime_requests (k : nat) (B : Z) : list call :=
  concat (replicate k [CallPrime (B / 2 + 1); CallPrime (B / 2)]).

(** The outcome of a computation, the world set aside. *)
Definition result {A} (c : M A) (w : world) : outcome A := fst (c w).

(** Two worlds hold the same program state (the ghost trace apart). *)
Definition same_state (w1 w2 : world) : Prop :=
  heap w1 = heap w2 ∧ entropy w1 = entropy w2.

(** The stored public key at an address. *)
Definition public_at (w : world) (l : loc) (k : PublicKey.t) : Prop :=
  heap w !! l = Some (OPublicKey k).

(** The stored private key at an address, with the public key its
    [publicKey] property refers to. *)
Definition private_at (w : world) (l : loc) (k : PrivateKey.t)
    (pk : PublicKey.t) : Prop :=
  heap w !! l = Some (OPrivateKey k) ∧
  ∃ l', PrivateKey.publicKey k = VRef l' ∧ heap w !! l' = Some (OPublicKey pk).

(** The four keyed operations. *)
Inductive keyed : Type := Encrypt | Verify | Sign | Decrypt.

Definition perform (op : keyed) : loc → Z → M Z :=
  match op with
  | Encrypt => Bundled.PublicKey_encrypt
  | Verify => Bundled.PublicKey_verify
  | Sign => Bundled.PrivateKey_sign
  | Decrypt => Bundled.PrivateKey_decrypt
  end.

(** The key material an operation works with: the receiver [this] is a
    stored key whose exponent is [ex] ([e] for a public key, [d] for a
    private one) and whose modulus, read through [publicKey] for a
    private key, is [n]. *)
Definition holds (op : keyed) (w : world) (this : loc) (ex n : Z) : Prop :=
  match op with
  | Encrypt | Verify =>
      ∃ k, public_at w this k ∧ PublicKey.e k = ex ∧ PublicKey.n k = n
  | Sign | Decrypt =>
      ∃ k pk, private_at w this k pk ∧ PrivateKey.d k = ex ∧ PublicKey.n pk = n
  end.

(** What the constructor keeps of an optional argument [x]: [null] for
    a falsy one, [BigInt(x)] otherwise. *)
Definition kept (x : value) (field : option Z) : Prop :=
  if truthy x then ∃ z, BigInt x = Ok z ∧ field = Some z
  else field = None.

(** A caller rebuilding a key pair from stored numbers: the public key
    from [e] and [n], then the private key from [d] alone, the
    factorization left out. *)
Definition reconstruct (e n d : value) : M KeyPair.t :=
  (publicKey <- Bundled.PublicKey_new e n ;;
   privateKey <- Bundled.PrivateKey_new d VUndefined VUndefined VUndefined
                   (VRef publicKey) ;;
   ret (KeyPair.make publicKey privateKey))%js.

(** The world after an assignment [o.n = ...; o.e = ...] that leaves the
    public key [k] at the address [l]. *)
Definition with_public (w : world) (l : loc) (k : PublicKey.t) : world :=
  World (<[l := OPublicKey k]> (heap w)) (entropy w) (trace w).

End Vocabulary.

(* ================================================================== *)
(** * 9. Reference collaborators                                       *)
(* ================================================================== *)

(** Executable collaborators, used to run the code on concrete inputs. *)
Module Reference.

(** Modelled from the spec: the number of bits of a positive integer. *)
Definition bitLength (x : Z) : Z := Z.log2 x + 1.

(** Modelled from the spec: the modular inverse, failing unless
    [gcd(a, m) = 1] (and [m] is positive). *)
Definition modInv (a m : Z) : option Z :=
  if (0 <? m) && (Z.gcd a m =? 1) then Some (Z.invmod a m) else None.

(** Square and multiply, reducing at every step. *)
Fixpoint pow_mod_pos (b : Z) (e : positive) (n : Z) : Z :=
  match e with
  | xH => b `mod` n
  | xO e' => let r := pow_mod_pos b e' n in (r * r) `mod` n
  | xI e' => let r := pow_mod_pos b e' n in (r * r * b) `mod` n
  end.

(** Modelled from the spec: modular exponentiation, for a positive
    modulus and a natural exponent. *)
Definition modPow (b e n : Z) : option Z :=
  if n <=? 0 then None
  else match e with
       | Z0 => Some (1 `mod` n)
       | Zpos e' => Some (pow_mod_pos b e' n)
       | Zneg _ => None
       end.

Definition provider : Provider.BigIntegerProvider := {|
  Provider.bitLength := bitLength;
  Provider.gcd := Z.gcd;
  Provider.modInv := modInv;
  Provider.modPow := modPow
|}.

(** [x] has exactly [bits] significant bits. *)
Definition has_bits (bits x : Z) : bool :=
  (2 ^ (bits - 1) <=? x) && (x <? 2 ^ bits).

(** Primality by trial division. *)
Definition is_prime (x : Z) : bool :=
  (1 <? x) && forallb (λ k, negb (x `mod` k =? 0)) (seqZ 2 (x - 2)).

(** A scripted prime source: the entropy is the list of the integers
    still to be handed out; a request is served by the next one if it
    passes [check], and fails otherwise. *)
Definition scripted_prime (check : Z → Z → bool) (bits : Z) (s : list Z)
    : option Z * list Z :=
  match s with
  | [] => (None, [])
  | x :: s' => if check bits x then (Some x, s') else (None, s')
  end.

(** The source that checks sizes only. *)
Definition sized : Provider.PrimeSource := {|
  Provider.entropy := list Z;
  Provider.prime := scripted_prime has_bits
|}.

(** The source that checks sizes and primality. *)
Definition certified : Provider.PrimeSource := {|
  Provider.entropy := list Z;
  Provider.prime := scripted_prime (λ bits x, has_bits bits x && is_prime x)
|}.

(** A script of genuine primes of the requested sizes on which the loop,
    asked for a 6-bit modulus, rejects [rounds] passes (13 * 7 = 91 has 7
    bits) and accepts the next one (11 * 5 = 55 has 6). *)
Definition late_script (rounds : nat) : list Z :=
  concat (replicate rounds [13; 7]) ++ [11; 5].

(** An empty heap and a script. *)
Definition start (PS : Provider.PrimeSource)
    (s : @Provider.entropy PS) : @world PS :=
  World ∅ s [].

(** A 6-bit key pair: the primes 11 and 5, generated in one pass. *)
Definition small_run : outcome KeyPair.t * @world certified :=
  @Bundled.generateRandomKeys provider certified 1 (Some 6)
    (start certified [11; 5]).

(** The world that run leaves, and the two keys in it. *)
Definition small_world : @world certified := small_run.2.
Definition small_public : PublicKey.t := PublicKey.make 65537 55.
Definition small_private : PrivateKey.t :=
  PrivateKey.make 33 (Some 11) (Some 5) (Some 40) (VRef 1%positive).

(** A world that holds nothing but a public key with the same
    exponent and modulus. *)
Definition lone_key : @world certified :=
  (@alloc certified (OPublicKey (PublicKey.make 65537 55))
     (start certified [])).2.

(** A 128-bit key pair from a 65-bit and a 64-bit integer. *)
Definition wide_run : outcome KeyPair.t * @world sized :=
  @Bundled.generateRandomKeys provider sized 1 (Some 128)
    (start sized [2 ^ 64 + 13; 2 ^ 63 + 29]).

(** A constructor call with a zero, an omitted and a non-zero optional
    argument. *)
Definition partial_key : outcome loc * @world certified :=
  @Bundled.PrivateKey_new certified (VBigInt 5) (VBigInt 0) VUndefined
    (VNumber 7) VNull (start certified []).

(** A key pair rebuilt from the numbers [e = 3], [n = 55], [d = 27]. *)
Definition rebuilt_run : outcome KeyPair.t * @world certified :=
  @reconstruct certified (VBigInt 3) (VBigInt 55) (VBigInt 27)
    (start certified []).

(** A generation whose prime source runs dry on the second request. *)
Definition dry_run : outcome KeyPair.t * @world certified :=
  @Bundled.generateRandomKeys provider certified 1 (Some 6)
    (start certified [11]).

(** A generation asked for a 2-bit modulus, served 3 and 1 three times. *)
Definition tiny_run : outcome KeyPair.t * @world sized :=
  @Bundled.generateRandomKeys provider sized 3 (Some 2)
    (start sized [3; 1; 3; 1; 3; 1]).

(** The world of the 6-bit key pair with entropy for another one. *)
Definition refilled_world : @world certified :=
  @World certified (heap small_world) [11; 5] (trace small_world).

End Reference.

(* ================================================================== *)
(** * 10. Arithmetic behind the keyed operations                       *)
(* ================================================================== *)

Section Arithmetic.

(** One factor of the modulus: an exponent that is [1] modulo [p - 1]
    fixes every residue modulo the prime [p]. *)
Lemma pow_one_more_prime (p m j : Z) :
  Z.prime p → 0 ≤ j → m ^ (1 + j * (p - 1)) `mod` p = m `mod` p.
Proof.
  intros Hp Hj.
  pose proof (Z.prime_ge_2 p Hp) as Hp2.
  rewrite Z.pow_add_r, Z.pow_1_r by nia.
  destruct (Z.eq_dec (m `mod` p) 0) as [Hz | Hnz].
  - rewrite <- Z.mul_mod_idemp_l, Hz by lia. rewrite Z.mul_0_l.
    now rewrite Z.mod_0_l by lia.
  - rewrite Z.mul_comm, (Z.mul_comm j), Z.pow_mul_r by lia.
    rewrite <- Z.mul_mod_idemp_l by lia.
    rewrite <- Z.mod_pow_l, (Z.fermat_nz p m Hp Hnz), Z.pow_1_l by lia.
    rewrite Z.mod_1_l by lia. now rewrite Z.mul_1_l.
Qed.

Lemma distinct_primes_coprime (p q : Z) :
  Z.prime p → Z.prime q → p ≠ q → Z.coprime p q.
Proof.
  intros Hp Hq Hne. apply Z.coprime_prime_l; [exact Hp |].
  intros Hd. apply Hne. now apply Z.divide_prime_prime.
Qed.

(** The totient of a product of two distinct primes is at least 2. *)
Lemma totient_ge_2 (p q : Z) :
  Z.prime p → Z.prime q → p ≠ q → 2 ≤ (p - 1) * (q - 1).
Proof.
  intros Hp%Z.prime_ge_2 Hq%Z.prime_ge_2 Hne. nia.
Qed.

(** Textbook RSA: exponents that are inverse modulo [(p-1)(q-1)] undo
    each other modulo [p * q], for every residue (coprime or not). *)
Lemma rsa_exponents_cancel (p q e d m : Z) :
  Z.prime p → Z.prime q → p ≠ q → 0 ≤ e → 0 ≤ d →
  (e * d) `mod` ((p - 1) * (q - 1)) = 1 `mod` ((p - 1) * (q - 1)) →
  (m ^ e `mod` (p * q)) ^ d `mod` (p * q) = m `mod` (p * q).
Proof.
  intros Hp Hq Hne He Hd Hinv.
  pose proof (Z.prime_ge_2 p Hp) as Hp2.
  pose proof (Z.prime_ge_2 q Hq) as Hq2.
  pose proof (totient_ge_2 p q Hp Hq Hne) as Hphi.
  rewrite Z.mod_pow_l, <- Z.pow_mul_r by assumption.
  rewrite Z.mod_1_l in Hinv by lia.
  set (phi := (p - 1) * (q - 1)) in *.
  assert (Hk : ∃ k, 0 ≤ k ∧ e * d = 1 + k * phi).
  { exists ((e * d) / phi). split.
    - apply Z.div_pos; nia.
    - pose proof (Z.div_mod (e * d) phi ltac:(lia)). lia. }
  destruct Hk as (k & Hk & ->).
  assert (Hmp : m ^ (1 + k * phi) `mod` p = m `mod` p).
  { replace (k * phi) with ((k * (q - 1)) * (p - 1)) by (unfold phi; ring).
    apply pow_one_more_prime; [exact Hp | nia]. }
  assert (Hmq : m ^ (1 + k * phi) `mod` q = m `mod` q).
  { replace (k * phi) with ((k * (p - 1)) * (q - 1)) by (unfold phi; ring).
    apply pow_one_more_prime; [exact Hq | nia]. }
  pose proof (distinct_primes_coprime p q Hp Hq Hne) as Hco.
  rewrite (Z.combinecong_complete_coprime_nonneg _ p q m m Hco Hmp Hmq)
    by nia.
  symmetry.
  apply Z.combinecong_complete_coprime_nonneg; [exact Hco | | | nia];
    reflexivity.
Qed.

(** Bounds that a bit count gives. *)
Lemma log2_bits (x b : Z) : 0 < x → Z.log2 x + 1 = b → 2 ^ (b - 1) ≤ x < 2 ^ b.
Proof.
  intros Hx <-. pose proof (Z.log2_spec x Hx) as H.
  replace (Z.log2 x + 1 - 1) with (Z.log2 x) by lia.
  now replace (Z.log2 x + 1) with (Z.succ (Z.log2 x)) by lia.
Qed.

End Arithmetic.

(* ================================================================== *)
(** * 11. The reference collaborators meet their contracts             *)
(* ================================================================== *)

Section ReferenceFacts.
Import Reference.

Lemma reference_bitLength : @Contract.bitLength_counts_bits provider.
Proof. intros x _. reflexivity. Qed.

Lemma reference_gcd : @Contract.gcd_is_gcd provider.
Proof. intros a b. reflexivity. Qed.

Lemma reference_modInv : @Contract.modInv_inverts provider.
Proof.
  split; intros a m; cbn; unfold modInv.
  - intros Hg. destruct (Z.eqb_spec (Z.gcd a m) 1) as [Heq | _]; [easy |].
    now rewrite andb_false_r.
  - intros Hm Hg. exists (Z.invmod a m).
    destruct (Z.ltb_spec 0 m) as [_ | ?]; [| lia].
    rewrite Hg. cbn. split; [reflexivity |]. split.
    + rewrite <- (Z.mod_invmod m a). apply Z.mod_pos_bound. lia.
    + rewrite Z.mul_comm. now apply Z.invmod_coprime'.
Qed.

Lemma pow_mod_pos_correct (b n : Z) (e : positive) :
  0 < n → pow_mod_pos b e n = b ^ Z.pos e `mod` n.
Proof.
  intros Hn. induction e as [e IH | e IH |]; cbn [pow_mod_pos].
  - rewrite IH, Pos2Z.inj_xI.
    replace (2 * Z.pos e + 1) with (Z.pos e + Z.pos e + 1) by lia.
    rewrite !Z.pow_add_r, Z.pow_1_r by lia.
    rewrite <- (Z.mul_mod_idemp_l (_ * _) b), <- Z.mul_mod by lia.
    now rewrite Z.mul_mod_idemp_l by lia.
  - rewrite IH, Pos2Z.inj_xO.
    replace (2 * Z.pos e) with (Z.pos e + Z.pos e) by lia.
    rewrite Z.pow_add_r by lia. now rewrite <- Z.mul_mod by lia.
  - now rewrite Z.pow_1_r.
Qed.

Lemma reference_modPow : @Contract.modPow_exponentiates provider.
Proof.
  intros b e n He Hn. cbn. unfold modPow.
  destruct (Z.leb_spec n 0) as [? | _]; [lia |].
  destruct e as [| e | e]; [reflexivity | | lia].
  now rewrite pow_mod_pos_correct.
Qed.

Lemma has_bits_bounds (bits x : Z) :
  has_bits bits x = true → 2 ^ (bits - 1) ≤ x < 2 ^ bits.
Proof. unfold has_bits. intros [H1 H2]%andb_prop. lia. Qed.

Lemma is_prime_sound (x : Z) : is_prime x = true → Z.prime x.
Proof.
  unfold is_prime. intros [H1 H2]%andb_prop.
  split; [lia |]. intros k Hk Hd.
  rewrite forallb_forall in H2.
  assert (Hin : In k (seqZ 2 (x - 2))).
  { apply list_elem_of_In, elem_of_seqZ. lia. }
  specialize (H2 k Hin). apply Z.mod0_divide in Hd.
  rewrite Hd in H2. discriminate.
Qed.

Lemma scripted_prime_checked check bits s v s' :
  scripted_prime check bits s = (Some v, s') → check bits v = true.
Proof.
  destruct s as [| x s]; cbn; [discriminate |].
  destruct (check bits x) eqn:E; [| discriminate]. congruence.
Qed.

Lemma sized_has_bits : @Contract.prime_has_bits sized.
Proof.
  intros bits s v s' _ H%scripted_prime_checked. now apply has_bits_bounds.
Qed.

Lemma certified_has_bits : @Contract.prime_has_bits certified.
Proof.
  intros bits s v s' _ H%scripted_prime_checked.
  apply andb_prop in H as [H _]. now apply has_bits_bounds.
Qed.

Lemma certified_is_prime : @Contract.prime_is_prime certified.
Proof.
  intros bits s v s' H%scripted_prime_checked.
  apply andb_prop in H as [_ H]. now apply is_prime_sound.
Qed.

End ReferenceFacts.

(* ================================================================== *)
(** * 12. Running computations                                         *)
(* ================================================================== *)

Create HintDb js_unfold.
#[global] Hint Unfold bind ret throw pending lift log alloc load invoke await
  this_PublicKey this_PrivateKey get_n
  crypto.modPow crypto.modInv crypto.prime crypto.bitLength crypto.gcd
  : js_unfold.

(** Case analysis on the scrutinee of the innermost [match] in sight. *)
Ltac case_scrutinee :=
  match goal with
  | |- context [match ?x with _ => _ end] =>
      lazymatch x with
      | context [match _ with _ => _ end] => fail
      | _ => destruct x eqn:?
      end
  | H : context [match ?x with _ => _ end] |- _ =>
      lazymatch x with
      | context [match _ with _ => _ end] => fail
      | _ => destruct x eqn:?
      end
  end.

Ltac run_js := autounfold with js_unfold in *; cbn in *.

#[global] Arguments crypto.prime : simpl never.
#[global] Arguments crypto.modInv : simpl never.
#[global] Arguments crypto.modPow : simpl never.
#[global] Arguments construct : simpl never.

Section Running.
Context `{BIP : Provider.BigIntegerProvider} `{PS : Provider.PrimeSource}.

Lemma bind_Ok_inv {A B} (c : M A) (k : A → M B) w b w' :
  bind c k w = (Ok b, w') →
  ∃ a w1, c w = (Ok a, w1) ∧ k a w1 = (Ok b, w').
Proof.
  unfold bind. destruct (c w) as [[a | err |] w1]; [eauto | discriminate ..].
Qed.

Lemma bind_Ok {A B} (c : M A) (k : A → M B) w a w1 :
  c w = (Ok a, w1) → bind c k w = k a w1.
Proof. unfold bind. now intros ->. Qed.

Lemma this_PublicKey_at w l k :
  public_at w l k → this_PublicKey l w = (Ok k, w).
Proof. unfold public_at. intros H. run_js. now rewrite H. Qed.

Lemma this_PrivateKey_at w l k pk :
  private_at w l k pk → this_PrivateKey l w = (Ok k, w).
Proof. intros [H _]. run_js. now rewrite H. Qed.

Lemma get_n_at w l k pk :
  private_at w l k pk → get_n (PrivateKey.publicKey k) w = (Ok (PublicKey.n pk), w).
Proof.
  intros [_ (l' & -> & H)]. unfold get_n.
  now rewrite (bind_Ok _ _ _ _ _ (this_PublicKey_at w l' pk H)).
Qed.

(** What a call to [modPow] does to the world: one more trace entry. *)
Lemma modPow_run b e n w :
  crypto.modPow b e n w =
    (match Provider.modPow b e n with
     | Some r => Ok r
     | None => Throw (Failed (CallModPow b e n))
     end,
     World (heap w) (entropy w) (trace w ++ [CallModPow b e n])).
Proof. run_js. now destruct (Provider.modPow b e n). Qed.

Lemma modInv_run a n w :
  crypto.modInv a n w =
    (match Provider.modInv a n with
     | Some r => Ok r
     | None => Throw (Failed (CallModInv a n))
     end,
     World (heap w) (entropy w) (trace w ++ [CallModInv a n])).
Proof. run_js. now destruct (Provider.modInv a n). Qed.

Lemma prime_run bits w :
  crypto.prime bits w =
    (match (Provider.prime bits (entropy w)).1 with
     | Some r => Ok r
     | None => Throw (Failed (CallPrime bits))
     end,
     World (heap w) (Provider.prime bits (entropy w)).2
           (trace w ++ [CallPrime bits])).
Proof. run_js. now destruct (Provider.prime bits (entropy w)). Qed.

(** The keyed operations, once the receiver is known. *)
Lemma encrypt_run w l k x :
  public_at w l k →
  Bundled.PublicKey_encrypt l x w = crypto.modPow x (PublicKey.e k) (PublicKey.n k) w.
Proof.
  intros H. unfold Bundled.PublicKey_encrypt.
  now rewrite (bind_Ok _ _ _ _ _ (this_PublicKey_at w l k H)).
Qed.

Lemma verify_run w l k x :
  public_at w l k →
  Bundled.PublicKey_verify l x w = crypto.modPow x (PublicKey.e k) (PublicKey.n k) w.
Proof.
  intros H. unfold Bundled.PublicKey_verify.
  now rewrite (bind_Ok _ _ _ _ _ (this_PublicKey_at w l k H)).
Qed.

Lemma sign_run w l k pk x :
  private_at w l k pk →
  Bundled.PrivateKey_sign l x w = crypto.modPow x (PrivateKey.d k) (PublicKey.n pk) w.
Proof.
  intros H. unfold Bundled.PrivateKey_sign.
  rewrite (bind_Ok _ _ _ _ _ (this_PrivateKey_at w l k pk H)).
  now rewrite (bind_Ok _ _ _ _ _ (get_n_at w l k pk H)).
Qed.

Lemma decrypt_run w l k pk x :
  private_at w l k pk →
  Bundled.PrivateKey_decrypt l x w = crypto.modPow x (PrivateKey.d k) (PublicKey.n pk) w.
Proof.
  intros H. unfold Bundled.PrivateKey_decrypt.
  rewrite (bind_Ok _ _ _ _ _ (this_PrivateKey_at w l k pk H)).
  now rewrite (bind_Ok _ _ _ _ _ (get_n_at w l k pk H)).
Qed.

(** Stored keys are untouched by a change of entropy or trace. *)
Lemma public_at_heap w1 w2 l k :
  heap w1 = heap w2 → public_at w1 l k → public_at w2 l k.
Proof. unfold public_at. now intros ->. Qed.

Lemma private_at_heap w1 w2 l k pk :
  heap w1 = heap w2 → private_at w1 l k pk → private_at w2 l k pk.
Proof. unfold private_at. now intros ->. Qed.

End Running.

(* ================================================================== *)
(** * 13. The sampling loop                                            *)
(* ================================================================== *)

Section Loop.
Context `{BIP : Provider.BigIntegerProvider} `{PS : Provider.PrimeSource}.

(** A pass that completes drew both primes afresh, in order, and sent
    exactly those two requests. *)
Lemma sample_Ok B w r w1 :
  Bundled.sample B w = (Ok r, w1) ↔
  ∃ p q s1 s2,
    Provider.prime (B / 2 + 1) (entropy w) = (Some p, s1) ∧
    Provider.prime (B / 2) s1 = (Some q, s2) ∧
    r = (p, q, p * q, (p - 1) * (q - 1)) ∧
    w1 = World (heap w) s2 (trace w ++ [CallPrime (B / 2 + 1); CallPrime (B / 2)]).
Proof.
  unfold Bundled.sample, Bundled._ONE, bind. rewrite prime_run.
  destruct (Provider.prime (B / 2 + 1) (entropy w)) as [[p |] s1] eqn:E1; cbn.
  - rewrite prime_run. cbn.
    destruct (Provider.prime (B / 2) s1) as [[q |] s2] eqn:E2; cbn.
    + unfold ret. rewrite <- app_assoc. cbn. split.
      * intros [= <- <-]. now exists p, q, s1, s2.
      * intros (p' & q' & s1' & s2' & [= <- <-] & H2 & -> & ->).
        rewrite E2 in H2. now injection H2 as <- <-.
    + split; [discriminate |].
      intros (p' & q' & s1' & s2' & [= <- <-] & H2 & _).
      rewrite E2 in H2. discriminate.
  - split; [discriminate |]. now intros (? & ? & ? & ? & [=] & _).
Qed.

Lemma sample_heap B w r w1 :
  Bundled.sample B w = (Ok r, w1) →
  heap w1 = heap w ∧
  trace w1 = trace w ++ [CallPrime (B / 2 + 1); CallPrime (B / 2)].
Proof. intros (p & q & s1 & s2 & _ & _ & _ & ->)%sample_Ok. now cbn. Qed.

Lemma after_rejected_state k B w wk :
  after_rejected k B w = Some wk →
  heap wk = heap w ∧ trace wk = trace w ++ prime_requests k B.
Proof.
  revert w. induction k as [| k IH]; intros w; cbn.
  - intros [= ->]. unfold prime_requests. cbn. now rewrite app_nil_r.
  - destruct (Bundled.sample B w) as [[r | |] w1] eqn:E; try discriminate.
    destruct (Bundled.again B r); [| discriminate].
    intros [Hh Ht]%IH. apply sample_heap in E as [Eh Et].
    split; [congruence |]. rewrite Ht, Et.
    unfold prime_requests. cbn. now rewrite <- app_assoc.
Qed.

(** The loop returns exactly when some pass is the first one the
    condition lets through. *)
Lemma do_while_Ok fuel B w r w1 :
  do_while fuel (Bundled.sample B) (Bundled.again B) w = (Ok r, w1) ↔
  ∃ k wk, (k < fuel)%nat ∧ after_rejected k B w = Some wk ∧
          Bundled.sample B wk = (Ok r, w1) ∧ Bundled.again B r = false.
Proof.
  revert w. induction fuel as [| fuel IH]; intros w; cbn [do_while].
  - split; [discriminate | intros (k & _ & Hk & _); lia].
  - unfold bind at 1.
    destruct (Bundled.sample B w) as [[r0 | err |] w0] eqn:E.
    + destruct (Bundled.again B r0) eqn:Ea.
      * rewrite IH. split.
        -- intros (k & wk & Hk & Hr & Hs & Hn).
           exists (S k), wk. cbn. rewrite E, Ea. split; [lia | easy].
        -- intros (k & wk & Hk & Hr & Hs & Hn). destruct k as [| k].
           ++ cbn in Hr. injection Hr as <-. rewrite E in Hs.
              injection Hs as <- <-. congruence.
           ++ cbn in Hr. rewrite E, Ea in Hr.
              exists k, wk. split; [lia | easy].
      * unfold ret. split.
        -- intros [= <- <-]. exists O, w. cbn. split; [lia | easy].
        -- intros (k & wk & Hk & Hr & Hs & Hn). destruct k as [| k].
           ++ cbn in Hr. injection Hr as <-. rewrite E in Hs.
              now injection Hs as <- <-.
           ++ cbn in Hr. rewrite E, Ea in Hr. discriminate.
    + split; [discriminate |].
      intros (k & wk & Hk & Hr & Hs & Hn). destruct k as [| k]; cbn in Hr.
      * injection Hr as <-. rewrite E in Hs. discriminate.
      * rewrite E in Hr. discriminate.
    + split; [discriminate |].
      intros (k & wk & Hk & Hr & Hs & Hn). destruct k as [| k]; cbn in Hr.
      * injection Hr as <-. rewrite E in Hs. discriminate.
      * rewrite E in Hr. discriminate.
Qed.

(** A pass never leaves the caller waiting: the loop is still running
    after [fuel] passes exactly when all of them were rejected. *)
Lemma sample_not_Pending B w w1 : Bundled.sample B w ≠ (Pending, w1).
Proof.
  unfold Bundled.sample, bind. rewrite prime_run. cbn.
  destruct (Provider.prime (B / 2 + 1) (entropy w)) as [[p |] s1]; cbn;
    [| discriminate].
  rewrite prime_run. cbn.
  destruct (Provider.prime (B / 2) s1) as [[q |] s2]; cbn; discriminate.
Qed.

Lemma do_while_Pending fuel B w w1 :
  do_while fuel (Bundled.sample B) (Bundled.again B) w = (Pending, w1) ↔
  after_rejected fuel B w = Some w1.
Proof.
  revert w. induction fuel as [| fuel IH]; intros w; cbn.
  - unfold pending. split; intros [= ->]; reflexivity.
  - unfold bind at 1.
    destruct (Bundled.sample B w) as [[r0 | err |] w0] eqn:E.
    + destruct (Bundled.again B r0); [apply IH |].
      unfold ret. split; discriminate.
    + split; discriminate.
    + now apply sample_not_Pending in E.
Qed.

(** What an accepted pass guarantees. *)
Lemma again_false B p q n phi :
  Bundled.again B (p, q, n, phi) = false ↔
  p ≠ q ∧ Provider.bitLength n = B ∧ Provider.gcd phi 65537 = 1.
Proof.
  unfold Bundled.again, Bundled._E, Bundled._ONE, crypto.bitLength, crypto.gcd.
  rewrite !orb_false_iff, !negb_false_iff, !Z.eqb_eq, Z.eqb_neq. tauto.
Qed.

End Loop.

(* ================================================================== *)
(** * 14. What a successful generation leaves behind                   *)
(* ================================================================== *)

Section Generation.
Context `{BIP : Provider.BigIntegerProvider} `{PS : Provider.PrimeSource}.

Lemma truthy_BigInt_bigint (x : Z) w :
  Bundled.truthy_BigInt (VBigInt x) w = (Ok (if x =? 0 then None else Some x), w).
Proof.
  unfold Bundled.truthy_BigInt. cbn. now destruct (x =? 0).
Qed.

(** Both constructors, called on [bigint]s. *)
Lemma construct_run p q n phi d w :
  let pk := PublicKey.make 65537 n in
  let l1 := fresh (dom (heap w)) in
  let h1 := <[l1 := OPublicKey pk]> (heap w) in
  let l2 := fresh (dom h1) in
  let sk := PrivateKey.make d (if p =? 0 then None else Some p)
              (if q =? 0 then None else Some q)
              (if phi =? 0 then None else Some phi) (VRef l1) in
  construct (p, q, n, phi, d) w =
    (Ok (KeyPair.make l1 l2),
     World (<[l2 := OPrivateKey sk]> h1) (entropy w) (trace w)).
Proof.
  unfold construct, Bundled.PublicKey_new, Bundled.PrivateKey_new,
    Bundled.truthy_BigInt, Bundled._E, bind, lift, alloc, ret.
  cbn. destruct (p =? 0), (q =? 0), (phi =? 0); reflexivity.
Qed.

Lemma construct_keys p q n phi d w kp w' :
  construct (p, q, n, phi, d) w = (Ok kp, w') →
  let pk := PublicKey.make 65537 n in
  let sk := PrivateKey.make d (if p =? 0 then None else Some p)
              (if q =? 0 then None else Some q)
              (if phi =? 0 then None else Some phi)
              (VRef (KeyPair.publicKey kp)) in
  public_at w' (KeyPair.publicKey kp) pk ∧
  private_at w' (KeyPair.privateKey kp) sk pk ∧
  entropy w' = entropy w ∧ trace w' = trace w.
Proof.
  rewrite construct_run. cbn. intros [= <- <-]. cbn.
  set (l1 := fresh (dom (heap w))).
  set (h1 := <[l1 := _]> (heap w)).
  set (l2 := fresh (dom h1)).
  assert (Hne : l2 ≠ l1).
  { intros Heq. apply (is_fresh (dom h1)). fold l2. rewrite Heq.
    unfold h1. rewrite dom_insert_L. set_solver. }
  assert (Hpk : (<[l2 := OPrivateKey
                   (PrivateKey.make d (if p =? 0 then None else Some p)
                      (if q =? 0 then None else Some q)
                      (if phi =? 0 then None else Some phi) (VRef l1))]> h1)
                !! l1 = Some (OPublicKey (PublicKey.make 65537 n))).
  { rewrite lookup_insert_ne by exact Hne. unfold h1.
    apply lookup_insert_eq. }
  unfold public_at, private_at. cbn.
  repeat split; try exact Hpk.
  - apply lookup_insert_eq.
  - exists l1. split; [reflexivity | exact Hpk].
Qed.

(** The code, read as: sample until accepted, invert the exponent,
    construct. *)
Lemma generateRandomKeys_unfold fuel B w :
  Bundled.generateRandomKeys fuel B w =
    bind (do_while fuel (Bundled.sample (default 2048 B))
                        (Bundled.again (default 2048 B)))
         (λ r, let '(p, q, n, phi) := r in
               bind (crypto.modInv 65537 phi)
                    (λ d, construct (p, q, n, phi, d))) w.
Proof.
  unfold Bundled.generateRandomKeys, construct, Bundled._E, bind.
  destruct (do_while _ _ _ w) as [[[[[p q] n] phi] | |] w1]; reflexivity.
Qed.

Lemma generateRandomKeys_Ok fuel B w kp w' :
  Bundled.generateRandomKeys fuel B w = (Ok kp, w') →
  ∃ p q d w1,
    do_while fuel (Bundled.sample (default 2048 B))
                  (Bundled.again (default 2048 B)) w
      = (Ok (p, q, p * q, (p - 1) * (q - 1)), w1) ∧
    Provider.modInv 65537 ((p - 1) * (q - 1)) = Some d ∧
    let phi := (p - 1) * (q - 1) in
    let pk := PublicKey.make 65537 (p * q) in
    let sk := PrivateKey.make d (if p =? 0 then None else Some p)
                (if q =? 0 then None else Some q)
                (if phi =? 0 then None else Some phi)
                (VRef (KeyPair.publicKey kp)) in
    public_at w' (KeyPair.publicKey kp) pk ∧
    private_at w' (KeyPair.privateKey kp) sk pk ∧
    entropy w' = entropy w1 ∧
    trace w' = trace w1 ++ [CallModInv 65537 phi].
Proof.
  rewrite generateRandomKeys_unfold.
  intros (r & w1 & Hloop & Hrest)%bind_Ok_inv.
  pose proof Hloop as (k & wk & _ & _ & Hs & _)%do_while_Ok.
  apply sample_Ok in Hs as (p & q & s1 & s2 & _ & _ & -> & _).
  apply bind_Ok_inv in Hrest as (d & w2 & Hinv & Hcon).
  rewrite modInv_run in Hinv.
  destruct (Provider.modInv 65537 ((p - 1) * (q - 1))) as [d' |] eqn:Ed;
    [| discriminate].
  injection Hinv as -> <-.
  apply construct_keys in Hcon as (Hpk & Hsk & He & Ht).
  exists p, q, d, w1. cbn in *. repeat split; try assumption.
  all: apply Hsk.
Qed.

End Generation.

(* ================================================================== *)
(** * 15. The keyed operations                                         *)
(* ================================================================== *)

Section KeyedOperations.
Context `{BIP : Provider.BigIntegerProvider} `{PS : Provider.PrimeSource}.

Lemma perform_run op w this ex n x :
  holds op w this ex n → perform op this x w = crypto.modPow x ex n w.
Proof.
  destruct op; cbn.
  - intros (k & H & <- & <-). now apply encrypt_run.
  - intros (k & H & <- & <-). now apply verify_run.
  - intros (k & pk & H & <- & <-). now apply (sign_run w this k pk).
  - intros (k & pk & H & <- & <-). now apply (decrypt_run w this k pk).
Qed.

(** No operation writes to the heap or draws entropy. *)
Lemma perform_state op this x w :
  same_state (perform op this x w).2 w.
Proof.
  unfold same_state.
  destruct op; cbn;
    unfold Bundled.PublicKey_encrypt, Bundled.PublicKey_verify,
      Bundled.PrivateKey_sign, Bundled.PrivateKey_decrypt;
    run_js; repeat case_scrutinee; cbn; auto.
Qed.

(** The outcome of an operation is read off the heap alone. *)
Lemma perform_heap op this x w1 w2 :
  heap w1 = heap w2 →
  result (perform op this x) w1 = result (perform op this x) w2.
Proof.
  intros Hh. unfold result.
  destruct op; cbn;
    unfold Bundled.PublicKey_encrypt, Bundled.PublicKey_verify,
      Bundled.PrivateKey_sign, Bundled.PrivateKey_decrypt;
    run_js; rewrite <- Hh;
    repeat (case_scrutinee; cbn; try rewrite <- Hh); auto; congruence.
Qed.

Lemma modPow_result b e n w :
  Contract.modPow_exponentiates → 0 ≤ e → 0 < n →
  result (crypto.modPow b e n) w = Ok (b ^ e `mod` n).
Proof.
  intros Hc He Hn. unfold result. rewrite modPow_run. cbn.
  now rewrite (Hc b e n He Hn).
Qed.

End KeyedOperations.

Section KeyedOperationClaims.
Context `{BIP : Provider.BigIntegerProvider} `{PS : Provider.PrimeSource}.

(** C4.  Each of the four keyed operations is a single modular
    exponentiation over the key's material.  For every stored public key
    with exponent [e] and modulus [n], whatever else the world holds,
    [encrypt(x)] and [verify(x)] are both the one call [modPow(x, e, n)];
    for every stored private key with exponent [d] whose public key has
    modulus [n], [sign(x)] and [decrypt(x)] are both the one call
    [modPow(x, d, n)].  Where the collaborator's contract applies the
    value returned is [x^e mod n], respectively [x^d mod n].  [encrypt]
    and [verify] coincide on every receiver and input, and so do [sign]
    and [decrypt]. *)
Theorem keyed_operations_are_one_modPow w x :
  (∀ pub pk, public_at w pub pk →
     Bundled.PublicKey_encrypt pub x w
       = crypto.modPow x (PublicKey.e pk) (PublicKey.n pk) w ∧
     Bundled.PublicKey_verify pub x w
       = crypto.modPow x (PublicKey.e pk) (PublicKey.n pk) w ∧
     (Contract.modPow_exponentiates →
      0 ≤ PublicKey.e pk → 0 < PublicKey.n pk →
        result (Bundled.PublicKey_encrypt pub x) w
          = Ok (x ^ PublicKey.e pk `mod` PublicKey.n pk) ∧
        result (Bundled.PublicKey_verify pub x) w
          = Ok (x ^ PublicKey.e pk `mod` PublicKey.n pk))) ∧
  (∀ priv sk spk, private_at w priv sk spk →
     Bundled.PrivateKey_sign priv x w
       = crypto.modPow x (PrivateKey.d sk) (PublicKey.n spk) w ∧
     Bundled.PrivateKey_decrypt priv x w
       = crypto.modPow x (PrivateKey.d sk) (PublicKey.n spk) w ∧
     (Contract.modPow_exponentiates →
      0 ≤ PrivateKey.d sk → 0 < PublicKey.n spk →
        result (Bundled.PrivateKey_sign priv x) w
          = Ok (x ^ PrivateKey.d sk `mod` PublicKey.n spk) ∧
        result (Bundled.PrivateKey_decrypt priv x) w
          = Ok (x ^ PrivateKey.d sk `mod` PublicKey.n spk))) ∧
  (∀ this, Bundled.PublicKey_encrypt this x w
           = Bundled.PublicKey_verify this x w) ∧
  (∀ this, Bundled.PrivateKey_sign this x w
           = Bundled.PrivateKey_decrypt this x w).
Proof.
  split; [| split; [| split]].
  - intros pub pk Hpub.
    pose proof (encrypt_run w pub pk x Hpub) as He.
    pose proof (verify_run w pub pk x Hpub) as Hv.
    split; [exact He |]. split; [exact Hv |].
    intros Hc Hex Hn. unfold result. rewrite He, Hv.
    split; now apply modPow_result.
  - intros priv sk spk Hpriv.
    pose proof (sign_run w priv sk spk x Hpriv) as Hs.
    pose proof (decrypt_run w priv sk spk x Hpriv) as Hd.
    split; [exact Hs |]. split; [exact Hd |].
    intros Hc Hex Hn. unfold result. rewrite Hs, Hd.
    split; now apply modPow_result.
  - reflexivity.
  - reflexivity.
Qed.

(** C7.  Out-of-range operands are silently reduced, never rejected:
    for a key with a positive modulus [n] and a natural exponent, and
    every integer [m >= 0] (also [m >= n]), each of [encrypt], [verify],
    [sign] and [decrypt] returns on [m] what it returns on [m mod n],
    and it returns a value: no error is raised on account of the
    operand. *)
Theorem out_of_range_operands_wrap op w this ex n m :
  Contract.modPow_exponentiates →
  holds op w this ex n →
  0 ≤ ex → 0 < n → 0 ≤ m →
  result (perform op this m) w = result (perform op this (m `mod` n)) w ∧
  ∃ c, result (perform op this m) w = Ok c ∧ 0 ≤ c < n.
Proof.
  intros Hc Hk Hex Hn Hm. unfold result.
  rewrite !(perform_run op w this ex n) by exact Hk.
  fold (result (crypto.modPow m ex n) w).
  fold (result (crypto.modPow (m `mod` n) ex n) w).
  rewrite !modPow_result by assumption. split.
  - now rewrite Z.mod_pow_l.
  - eexists. split; [reflexivity |]. apply Z.mod_pos_bound. lia.
Qed.

(** C8.  The four keyed operations are deterministic, pure functions of
    the input and the key material: a call leaves the heap (hence every
    field of every key) and the entropy as they were; calling again
    with the same input on the same key returns the identical outcome;
    and two keys holding the same exponent and modulus, in whatever
    world, give the same outcome on the same input. *)
Theorem keyed_operations_are_pure op this x w :
  same_state (perform op this x w).2 w ∧
  result (perform op this x) (perform op this x w).2
    = result (perform op this x) w ∧
  (∀ (w2 : world) this2 ex n,
     holds op w this ex n → holds op w2 this2 ex n →
     result (perform op this2 x) w2 = result (perform op this x) w).
Proof.
  pose proof (perform_state op this x w) as Hst.
  split; [exact Hst |]. split.
  - apply perform_heap, Hst.
  - intros w2 this2 ex n H1 H2. unfold result.
    rewrite (perform_run op w this ex n x H1).
    rewrite (perform_run op w2 this2 ex n x H2).
    now rewrite !modPow_run.
Qed.

End KeyedOperationClaims.

(* ================================================================== *)
(** * 16. Generated key pairs                                          *)
(* ================================================================== *)

Section GenerationClaims.
Context `{BIP : Provider.BigIntegerProvider} `{PS : Provider.PrimeSource}.

(** The pass that produced a returned key pair was let through by the
    loop condition. *)
Lemma generated_accepted fuel B w p q w1 :
  do_while fuel (Bundled.sample (default 2048 B))
                (Bundled.again (default 2048 B)) w
    = (Ok (p, q, p * q, (p - 1) * (q - 1)), w1) →
  p ≠ q ∧ Provider.bitLength (p * q) = default 2048 B ∧
  Provider.gcd ((p - 1) * (q - 1)) 65537 = 1.
Proof.
  intros (k & wk & _ & _ & _ & Ha)%do_while_Ok. now apply again_false.
Qed.

(** ... and its two integers are what the prime source handed out for
    the two requested sizes. *)
Lemma generated_sampled fuel B w p q w1 :
  do_while fuel (Bundled.sample (default 2048 B))
                (Bundled.again (default 2048 B)) w
    = (Ok (p, q, p * q, (p - 1) * (q - 1)), w1) →
  ∃ s s1 s2,
    Provider.prime (default 2048 B / 2 + 1) s = (Some p, s1) ∧
    Provider.prime (default 2048 B / 2) s1 = (Some q, s2).
Proof.
  intros (k & wk & _ & _ & Hs & _)%do_while_Ok.
  apply sample_Ok in Hs as (p' & q' & s1 & s2 & H1 & H2 & [= <- <-] & _).
  eauto.
Qed.

(** C2.  For every key pair returned by [generateRandomKeys(B)] (with
    [B = 2048] when the argument is omitted), the bit length of the
    modulus is exactly [B]: the [bitLength] accessor of the public key,
    and that of the private key, return [B].  Where [bitLength] counts
    bits, the modulus [n] then lies in [2^(B-1) <= n < 2^B]. *)
Theorem generated_modulus_has_requested_size fuel B w kp w' :
  Bundled.generateRandomKeys fuel B w = (Ok kp, w') →
  Bundled.PublicKey_bitLength (KeyPair.publicKey kp) w'
    = (Ok (default 2048 B), w') ∧
  Bundled.PrivateKey_bitLength (KeyPair.privateKey kp) w'
    = (Ok (default 2048 B), w') ∧
  (Contract.bitLength_counts_bits →
   ∀ pk, public_at w' (KeyPair.publicKey kp) pk → 0 < PublicKey.n pk →
     2 ^ (default 2048 B - 1) ≤ PublicKey.n pk < 2 ^ default 2048 B).
Proof.
  intros (p & q & d & w1 & Hloop & _ & Hpk & Hsk & _)%generateRandomKeys_Ok.
  apply generated_accepted in Hloop as (_ & Hbits & _).
  unfold Bundled.PublicKey_bitLength, Bundled.PrivateKey_bitLength.
  rewrite (bind_Ok _ _ _ _ _ (this_PublicKey_at _ _ _ Hpk)).
  rewrite (bind_Ok _ _ _ _ _ (this_PrivateKey_at _ _ _ _ Hsk)).
  rewrite (bind_Ok _ _ _ _ _ (get_n_at _ _ _ _ Hsk)).
  unfold ret, crypto.bitLength. cbn. rewrite Hbits.
  split; [reflexivity |]. split; [reflexivity |].
  intros Hcount pk Hpk' Hn. unfold public_at in Hpk, Hpk'.
  rewrite Hpk in Hpk'. injection Hpk' as <-. cbn in *.
  apply log2_bits; [exact Hn |]. now rewrite <- Hcount.
Qed.

(** C1.  Assuming the prime source returns genuine primes (and the
    arithmetic collaborators meet their contracts), for every key pair
    returned by [generateRandomKeys(B)] and every integer [m] with
    [0 <= m < n], [privateKey.decrypt(publicKey.encrypt(m))] returns [m]
    and [publicKey.verify(privateKey.sign(m))] returns [m]. *)
Theorem generated_keys_round_trip fuel B w kp w' :
  Contract.gcd_is_gcd →
  Contract.modInv_inverts →
  Contract.modPow_exponentiates →
  Contract.prime_is_prime →
  Bundled.generateRandomKeys fuel B w = (Ok kp, w') →
  ∃ pk, public_at w' (KeyPair.publicKey kp) pk ∧
    ∀ m, 0 ≤ m < PublicKey.n pk →
      result (bind (Bundled.PublicKey_encrypt (KeyPair.publicKey kp) m)
                   (Bundled.PrivateKey_decrypt (KeyPair.privateKey kp))) w'
        = Ok m ∧
      result (bind (Bundled.PrivateKey_sign (KeyPair.privateKey kp) m)
                   (Bundled.PublicKey_verify (KeyPair.publicKey kp))) w'
        = Ok m.
Proof.
  intros Hgcd [_ Hinv] Hpow Hprime
    (p & q & d & w1 & Hloop & Hd & Hpk & Hsk & _)%generateRandomKeys_Ok.
  pose proof (generated_accepted _ _ _ _ _ _ Hloop) as (Hne & _ & Hco).
  apply generated_sampled in Hloop as (s & s1 & s2 & Hp & Hq).
  apply Hprime in Hp, Hq.
  pose proof (totient_ge_2 p q Hp Hq Hne) as Hphi.
  pose proof (Z.prime_ge_2 p Hp) as Hp2.
  pose proof (Z.prime_ge_2 q Hq) as Hq2.
  rewrite Hgcd, Z.gcd_comm in Hco.
  destruct (Hinv 65537 ((p - 1) * (q - 1)) ltac:(lia) Hco)
    as (d' & Hd' & Hrange & Hed).
  rewrite Hd in Hd'. injection Hd' as <-.
  eexists. split; [exact Hpk |]. cbn. intros m Hm.
  assert (Hn : 0 < p * q) by nia.
  split; unfold result, bind.
  - rewrite (encrypt_run _ _ _ m Hpk), modPow_run, (Hpow _ _ _) by (cbn; lia).
    cbn. erewrite decrypt_run by (eapply private_at_heap; [| exact Hsk]; reflexivity).
    rewrite modPow_run, (Hpow _ _ _) by (cbn; lia). cbn.
    rewrite (rsa_exponents_cancel p q 65537 d m) by (assumption || lia).
    now rewrite Z.mod_small by lia.
  - erewrite sign_run by exact Hsk.
    rewrite modPow_run, (Hpow _ _ _) by (cbn; lia).
    cbn. erewrite verify_run by (eapply public_at_heap; [| exact Hpk]; reflexivity).
    rewrite modPow_run, (Hpow _ _ _) by (cbn; lia). cbn.
    rewrite (rsa_exponents_cancel p q d 65537 m); try (assumption || lia).
    + now rewrite Z.mod_small by lia.
    + now rewrite Z.mul_comm.
Qed.

End GenerationClaims.

Section ExponentClaims.
Context `{BIP : Provider.BigIntegerProvider} `{PS : Provider.PrimeSource}.

(** The only failure a pass can meet is the prime source's. *)
Lemma sample_Throw B w err w1 :
  Bundled.sample B w = (Throw err, w1) → ∃ bits, err = Failed (CallPrime bits).
Proof.
  unfold Bundled.sample, bind. rewrite prime_run. cbn.
  destruct (Provider.prime (B / 2 + 1) (entropy w)) as [[p |] s1]; cbn.
  - rewrite prime_run. cbn.
    destruct (Provider.prime (B / 2) s1) as [[q |] s2]; cbn.
    + discriminate.
    + intros [= <- _]. eauto.
  - intros [= <- _]. eauto.
Qed.

Lemma do_while_Throw fuel B w err w1 :
  do_while fuel (Bundled.sample B) (Bundled.again B) w = (Throw err, w1) →
  ∃ bits, err = Failed (CallPrime bits).
Proof.
  revert w. induction fuel as [| fuel IH]; intros w; cbn.
  - discriminate.
  - unfold bind at 1.
    destruct (Bundled.sample B w) as [[r0 | err0 |] w0] eqn:E.
    + destruct (Bundled.again B r0); [apply IH | discriminate].
    + intros [= <- _]. now apply sample_Throw in E.
    + discriminate.
Qed.

(** Sizes of the integers of an accepted pass when at least 128 bits
    were asked for. *)
Lemma generated_sizes fuel B w p q w1 :
  128 ≤ default 2048 B →
  Contract.prime_has_bits →
  do_while fuel (Bundled.sample (default 2048 B))
                (Bundled.again (default 2048 B)) w
    = (Ok (p, q, p * q, (p - 1) * (q - 1)), w1) →
  2 ^ 64 ≤ p ∧ 2 ^ 63 ≤ q.
Proof.
  intros HB Hsize (s & s1 & s2 & Hp & Hq)%generated_sampled.
  set (b := default 2048 B `div` 2) in *.
  assert (Hb : 64 ≤ b) by (apply Z.div_le_lower_bound; lia).
  apply Hsize in Hp as [Hp _]; [| lia].
  apply Hsize in Hq as [Hq _]; [| lia].
  replace (b + 1 - 1) with b in Hp by lia.
  pose proof (Z.pow_le_mono_r 2 64 b ltac:(lia) Hb).
  pose proof (Z.pow_le_mono_r 2 63 (b - 1) ltac:(lia) ltac:(lia)).
  lia.
Qed.

(** C5.  For every key pair returned by [generateRandomKeys(B)] with
    [B >= 128], the public exponent is the constant 65537, it satisfies
    [1 < e < n] and [gcd(e, (p-1)(q-1)) = 1], and the stored private
    exponent inverts it modulo [(p-1)(q-1)]; consequently the call
    [modInv(e, phi)] after the loop never fails: no run of
    [generateRandomKeys(B)] ends in a [modInv] failure. *)
Theorem generated_exponent_is_invertible fuel B w :
  128 ≤ default 2048 B →
  Contract.gcd_is_gcd →
  Contract.modInv_inverts →
  Contract.prime_has_bits →
  (∀ kp w', Bundled.generateRandomKeys fuel B w = (Ok kp, w') →
     ∃ pk sk p q,
       public_at w' (KeyPair.publicKey kp) pk ∧
       private_at w' (KeyPair.privateKey kp) sk pk ∧
       PublicKey.e pk = 65537 ∧
       1 < PublicKey.e pk < PublicKey.n pk ∧
       PublicKey.n pk = p * q ∧
       PrivateKey._p sk = Some p ∧ PrivateKey._q sk = Some q ∧
       PrivateKey._phi sk = Some ((p - 1) * (q - 1)) ∧
       Z.gcd (PublicKey.e pk) ((p - 1) * (q - 1)) = 1 ∧
       (PublicKey.e pk * PrivateKey.d sk) `mod` ((p - 1) * (q - 1)) = 1) ∧
  (∀ a m, result (Bundled.generateRandomKeys fuel B) w
            ≠ Throw (Failed (CallModInv a m))) ∧
  (∀ r w1,
     do_while fuel (Bundled.sample (default 2048 B))
                   (Bundled.again (default 2048 B)) w = (Ok r, w1) →
     ∃ kp, result (Bundled.generateRandomKeys fuel B) w = Ok kp).
Proof.
  intros HB Hgcd [Hfail Hinv] Hsize.
  assert (Hgo : ∀ r w1,
     do_while fuel (Bundled.sample (default 2048 B))
                   (Bundled.again (default 2048 B)) w = (Ok r, w1) →
     ∃ kp, result (Bundled.generateRandomKeys fuel B) w = Ok kp).
  { intros r w1 Hloop. unfold result. rewrite generateRandomKeys_unfold.
    rewrite (bind_Ok _ _ _ _ _ Hloop).
    pose proof Hloop as (k & wk & _ & _ & Hs & _)%do_while_Ok.
    apply sample_Ok in Hs as (p & q & s1 & s2 & _ & _ & -> & _).
    pose proof (generated_accepted _ _ _ _ _ _ Hloop) as (Hne & _ & Hco).
    pose proof (generated_sizes _ _ _ _ _ _ HB Hsize Hloop) as [Hp Hq].
    rewrite Hgcd, Z.gcd_comm in Hco.
    assert (Hphi : 1 < (p - 1) * (q - 1)) by nia.
    destruct (Hinv 65537 ((p - 1) * (q - 1)) ltac:(lia) Hco)
      as (d & Hd & _).
    cbv beta iota. unfold bind. rewrite modInv_run, Hd.
    cbv beta iota. rewrite construct_run. eauto. }
  split; [| split; [| exact Hgo]].
  - intros kp w'
      (p & q & d & w1 & Hloop & Hd & Hpk & Hsk & _)%generateRandomKeys_Ok.
    pose proof (generated_accepted _ _ _ _ _ _ Hloop) as (Hne & _ & Hco).
    pose proof (generated_sizes _ _ _ _ _ _ HB Hsize Hloop) as [Hp Hq].
    rewrite Hgcd, Z.gcd_comm in Hco.
    assert (Hphi : 1 < (p - 1) * (q - 1)) by nia.
    destruct (Hinv 65537 ((p - 1) * (q - 1)) ltac:(lia) Hco)
      as (d' & Hd' & Hrange & Hed).
    rewrite Hd in Hd'. injection Hd' as <-.
    rewrite Z.mod_1_l in Hed by lia.
    destruct (Z.eqb_spec p 0) as [? | _]; [lia |].
    destruct (Z.eqb_spec q 0) as [? | _]; [lia |].
    destruct (Z.eqb_spec ((p - 1) * (q - 1)) 0) as [? | _]; [lia |].
    eexists _, _, p, q.
    split; [exact Hpk |]. split; [exact Hsk |]. cbn.
    repeat split; try assumption; try reflexivity; nia.
  - intros a m.
    destruct (do_while fuel (Bundled.sample (default 2048 B))
                (Bundled.again (default 2048 B)) w)
      as [[r | err |] w1] eqn:Hloop.
    + destruct (Hgo r w1 eq_refl) as [kp ->]. discriminate.
    + unfold result. rewrite generateRandomKeys_unfold.
      unfold bind at 1. rewrite Hloop. cbn [fst].
      apply do_while_Throw in Hloop as [bits ->]. discriminate.
    + unfold result. rewrite generateRandomKeys_unfold.
      unfold bind at 1. rewrite Hloop. discriminate.
Qed.

End ExponentClaims.

(* ================================================================== *)
(** * 17. The generation algorithm                                     *)
(* ================================================================== *)

Section AlgorithmClaims.
Context `{BIP : Provider.BigIntegerProvider} `{PS : Provider.PrimeSource}.

Lemma again_is_not_gate B r :
  Bundled.again B r = negb (KeyGenerator.gate B r).
Proof.
  destruct r as [[[p q] n] phi].
  unfold Bundled.again, KeyGenerator.gate, Bundled._E, Bundled._ONE,
    KeyGenerator.e.
  now rewrite !negb_andb, negb_involutive.
Qed.

Lemma loop_is_repeat_until fuel B w :
  do_while fuel (Bundled.sample B) (Bundled.again B) w =
  KeyGenerator.repeat_until fuel (KeyGenerator.steps_1_3 B)
    (KeyGenerator.gate B) w.
Proof.
  revert w. induction fuel as [| fuel IH]; intros w; cbn; [reflexivity |].
  change (KeyGenerator.steps_1_3 B) with (Bundled.sample B).
  unfold bind.
  destruct (Bundled.sample B w) as [[r | err |] w1]; try reflexivity.
  rewrite again_is_not_gate.
  destruct (KeyGenerator.gate B r); cbn; [reflexivity | apply IH].
Qed.

Lemma prime_requests_S k B :
  prime_requests (S k) B =
  prime_requests k B ++ [CallPrime (B / 2 + 1); CallPrime (B / 2)].
Proof.
  unfold prime_requests. induction k as [| k IH]; [reflexivity |].
  cbn [replicate concat] in *. rewrite IH at 1. now rewrite <- app_assoc.
Qed.

(** C3.  [generateRandomKeys(B)] follows the specified algorithm.  It is
    the specification's steps 1 to 5 followed by the two constructor
    calls: each pass asks the prime source for [p] of [floor(B/2) + 1]
    bits and then for [q] of [floor(B/2)] bits, computes [n = p * q] and
    [phi = (p-1)(q-1)], and passes repeat until [p ≠ q],
    [bitLength(n) = B] and [gcd(phi, 65537) = 1] all hold.  A returned
    key pair comes from a pass that drew both of its integers afresh
    after [k] rejected passes, each of which had sent its own two
    requests; [modInv(65537, phi)] is requested once, after the last
    pass. *)
Theorem generation_follows_the_algorithm :
  (∀ fuel B w,
     Bundled.generateRandomKeys fuel B w =
     bind (KeyGenerator.steps_1_5 fuel B) construct w) ∧
  (∀ fuel B w kp w',
     Bundled.generateRandomKeys fuel B w = (Ok kp, w') →
     ∃ k wk p q s1 d sk,
       (k < fuel)%nat ∧
       after_rejected k (default 2048 B) w = Some wk ∧
       Provider.prime (default 2048 B / 2 + 1) (entropy wk) = (Some p, s1) ∧
       Provider.prime (default 2048 B / 2) s1 = (Some q, entropy w') ∧
       p ≠ q ∧
       Provider.bitLength (p * q) = default 2048 B ∧
       Provider.gcd ((p - 1) * (q - 1)) 65537 = 1 ∧
       Provider.modInv 65537 ((p - 1) * (q - 1)) = Some d ∧
       private_at w' (KeyPair.privateKey kp) sk (PublicKey.make 65537 (p * q)) ∧
       PrivateKey.d sk = d ∧
       PrivateKey.publicKey sk = VRef (KeyPair.publicKey kp) ∧
       trace w' = trace w ++ prime_requests (S k) (default 2048 B)
                          ++ [CallModInv 65537 ((p - 1) * (q - 1))]).
Proof.
  split.
  - intros fuel B w. rewrite generateRandomKeys_unfold.
    unfold KeyGenerator.steps_1_5, KeyGenerator.e, bind.
    rewrite loop_is_repeat_until.
    destruct (KeyGenerator.repeat_until _ _ _ w)
      as [[[[[p q] n] phi] | err |] w1]; try reflexivity.
    destruct (crypto.modInv 65537 phi w1) as [[d | err |] w2]; reflexivity.
  - intros fuel B w kp w'
      (p & q & d & w1 & Hloop & Hd & Hpk & Hsk & He & Ht)%generateRandomKeys_Ok.
    pose proof (generated_accepted _ _ _ _ _ _ Hloop) as (Hne & Hbits & Hco).
    apply do_while_Ok in Hloop as (k & wk & Hk & Hrej & Hs & _).
    pose proof (after_rejected_state _ _ _ _ Hrej) as [_ Htk].
    apply sample_Ok in Hs as (p' & q' & s1 & s2 & Hp & Hq & [= <- <-] & ->).
    cbn in He, Ht. subst s2.
    eexists k, wk, p, q, s1, d, _.
    repeat split; try eassumption; try apply Hsk; try reflexivity.
    rewrite Ht, Htk, prime_requests_S. now rewrite <- !app_assoc.
Qed.

End AlgorithmClaims.

Section RetryClaims.
Context `{BIP : Provider.BigIntegerProvider} `{PS : Provider.PrimeSource}.

(** The call is still running exactly when its loop is. *)
Lemma generateRandomKeys_Pending fuel B w :
  result (Bundled.generateRandomKeys fuel B) w = Pending ↔
  is_Some (after_rejected fuel (default 2048 B) w).
Proof.
  unfold result. rewrite generateRandomKeys_unfold. unfold bind at 1.
  destruct (do_while _ _ _ w) as [[r | err |] w1] eqn:Hloop; cbn [fst].
  - split.
    + destruct r as [[[p q] n] phi]. unfold bind. rewrite modInv_run.
      destruct (Provider.modInv 65537 phi); cbv beta iota;
        [rewrite construct_run |]; discriminate.
    + intros [w2 H2]. apply do_while_Pending in H2. congruence.
  - split; [discriminate |].
    intros [w2 H2]. apply do_while_Pending in H2. congruence.
  - apply do_while_Pending in Hloop. split; [eauto | reflexivity].
Qed.

End RetryClaims.

Section ReferenceRuns.
Import Reference.

(** On the late script the first [rounds] passes are all rejected. *)
Lemma late_script_rejected rounds (w : @world certified) :
  entropy w = late_script rounds →
  ∃ wk, @after_rejected provider certified rounds 6 w = Some wk ∧
        entropy wk = [11; 5].
Proof.
  revert w. induction rounds as [| rounds IH]; intros w Hw.
  - exists w. split; [reflexivity | exact Hw].
  - set (w1 := @World certified (heap w) (late_script rounds)
                 (trace w ++ [CallPrime (6 / 2 + 1); CallPrime (6 / 2)])).
    assert (Hs : @Bundled.sample certified 6 w
                 = (Ok (13, 7, 13 * 7, (13 - 1) * (7 - 1)), w1)).
    { apply sample_Ok.
      exists 13, 7, (7 :: late_script rounds), (late_script rounds).
      rewrite Hw. split; [reflexivity |]. split; [reflexivity |].
      split; reflexivity. }
    destruct (IH w1 eq_refl) as (wk & Hk & Hek).
    exists wk. split; [| exact Hek].
    cbn [after_rejected]. rewrite Hs. exact Hk.
Qed.

(** ... and the next one is accepted: the call returns. *)
Lemma late_script_returns rounds :
  ∃ kp, result (@Bundled.generateRandomKeys provider certified (S rounds) (Some 6))
          (start certified (late_script rounds)) = Ok kp.
Proof.
  destruct (late_script_rejected rounds (start certified (late_script rounds))
              eq_refl) as (wk & Hk & Hek).
  set (w1 := @World certified (heap wk) []
               (trace wk ++ [CallPrime (6 / 2 + 1); CallPrime (6 / 2)])).
  assert (Hs : @Bundled.sample certified 6 wk
               = (Ok (11, 5, 11 * 5, (11 - 1) * (5 - 1)), w1)).
  { apply sample_Ok. exists 11, 5, [5], []. rewrite Hek.
    split; [reflexivity |]. split; [reflexivity |]. split; reflexivity. }
  assert (Hloop : do_while (S rounds) (@Bundled.sample certified 6)
                    (@Bundled.again provider 6)
                    (start certified (late_script rounds))
                  = (Ok (11, 5, 11 * 5, (11 - 1) * (5 - 1)), w1)).
  { apply do_while_Ok. exists rounds, wk. repeat split; [lia | assumption ..]. }
  unfold result. rewrite generateRandomKeys_unfold.
  cbn [default from_option id].
  rewrite (bind_Ok _ _ _ _ _ Hloop). cbv beta iota.
  unfold bind. rewrite modInv_run.
  change (Provider.modInv 65537 ((11 - 1) * (5 - 1))) with (Some 33).
  cbv beta iota. rewrite construct_run. eauto.
Qed.

End ReferenceRuns.

Section NoCapClaim.
Context `{BIP : Provider.BigIntegerProvider} `{PS : Provider.PrimeSource}.

(** C6.  The generation loop has no iteration cap.  The call runs its
    [do ... while] loop and then inverts and constructs; the loop returns
    exactly when some pass is the first to satisfy the combined predicate;
    as long as every pass so far completed and was rejected the call is
    still running, whatever the number of passes, and that is the only
    way it keeps running; the only failure the loop can end in is the
    prime source's own (there is no retry-count failure); and for every
    number [N] there is a run, on genuine primes of the requested sizes,
    that is rejected [N] times and returns a key pair on pass [N + 1]. *)
Theorem generation_loop_has_no_cap :
  (∀ fuel B w,
     Bundled.generateRandomKeys fuel B w =
     bind (do_while fuel (Bundled.sample (default 2048 B))
                         (Bundled.again (default 2048 B)))
          (λ r, let '(p, q, n, phi) := r in
                bind (crypto.modInv 65537 phi)
                     (λ d, construct (p, q, n, phi, d))) w) ∧
  (∀ fuel B w r w1,
     do_while fuel (Bundled.sample B) (Bundled.again B) w = (Ok r, w1) ↔
     ∃ k wk, (k < fuel)%nat ∧ after_rejected k B w = Some wk ∧
             Bundled.sample B wk = (Ok r, w1) ∧ Bundled.again B r = false) ∧
  (∀ fuel B w,
     result (Bundled.generateRandomKeys fuel B) w = Pending ↔
     is_Some (after_rejected fuel (default 2048 B) w)) ∧
  (∀ fuel B w err w1,
     do_while fuel (Bundled.sample B) (Bundled.again B) w = (Throw err, w1) →
     ∃ bits, err = Failed (CallPrime bits)) ∧
  (∀ N : nat, ∃ kp,
     result (@Bundled.generateRandomKeys Reference.provider
               Reference.certified N (Some 6))
       (Reference.start Reference.certified (Reference.late_script N))
       = Pending ∧
     result (@Bundled.generateRandomKeys Reference.provider
               Reference.certified (S N) (Some 6))
       (Reference.start Reference.certified (Reference.late_script N))
       = Ok kp).
Proof.
  split; [| split; [| split; [| split]]].
  - apply generateRandomKeys_unfold.
  - intros fuel B w r w1. apply do_while_Ok.
  - intros fuel B w. apply generateRandomKeys_Pending.
  - apply do_while_Throw.
  - intros N. destruct (late_script_returns N) as [kp Hkp].
    exists kp. split; [| exact Hkp].
    apply generateRandomKeys_Pending.
    destruct (late_script_rejected N
                (Reference.start Reference.certified (Reference.late_script N))
                eq_refl) as (wk & Hk & _).
    now exists wk.
Qed.

End NoCapClaim.

(* ================================================================== *)
(** * 18. The two distributions                                        *)
(* ================================================================== *)

Section Distributions.
Context `{BIP : Provider.BigIntegerProvider} `{PS : Provider.PrimeSource}.

(** C9.  The two distribution variants are behaviourally equivalent:
    over the same collaborators, [generateRandomKeys], the [PublicKey]
    constructor, accessor and operations ([bitLength], [encrypt],
    [verify]) and the [PrivateKey] constructor, accessors and operations
    ([bitLength], [n], [sign], [decrypt]) of the bundled variant are the
    same functions of their arguments and of the world as those of the
    ES-module variant. *)
Theorem distributions_agree :
  (∀ fuel B w,
     Bundled.generateRandomKeys fuel B w
       = Namespaced.generateRandomKeys fuel B w) ∧
  (∀ e n w, Bundled.PublicKey_new e n w = Namespaced.PublicKey_new e n w) ∧
  (∀ this w,
     Bundled.PublicKey_bitLength this w = Namespaced.PublicKey_bitLength this w) ∧
  (∀ this m w,
     Bundled.PublicKey_encrypt this m w = Namespaced.PublicKey_encrypt this m w) ∧
  (∀ this s w,
     Bundled.PublicKey_verify this s w = Namespaced.PublicKey_verify this s w) ∧
  (∀ d p q phi publicKey w,
     Bundled.PrivateKey_new d p q phi publicKey w
       = Namespaced.PrivateKey_new d p q phi publicKey w) ∧
  (∀ this w,
     Bundled.PrivateKey_bitLength this w = Namespaced.PrivateKey_bitLength this w) ∧
  (∀ this w, Bundled.PrivateKey_n this w = Namespaced.PrivateKey_n this w) ∧
  (∀ this m w,
     Bundled.PrivateKey_sign this m w = Namespaced.PrivateKey_sign this m w) ∧
  (∀ this c w,
     Bundled.PrivateKey_decrypt this c w = Namespaced.PrivateKey_decrypt this c w).
Proof.
  repeat split; reflexivity.
Qed.

End Distributions.

(* ================================================================== *)
(** * 19. The PrivateKey constructor                                   *)
(* ================================================================== *)

Section Constructor.
Context `{PS : Provider.PrimeSource}.

(** The conditional on an optional argument, default applied. *)
Lemma truthy_BigInt_run (x : value) (w : world) :
  Bundled.truthy_BigInt (default_param VNull x) w =
    (if truthy x
     then match BigInt x with
          | Ok z => Ok (Some z)
          | Throw err => Throw err
          | Pending => Pending
          end
     else Ok None, w).
Proof. destruct x as [| | [] | z | | z | l]; cbn; try reflexivity;
       unfold Bundled.truthy_BigInt; cbn; now destruct (z =? 0). Qed.

Lemma truthy_BigInt_kept (x : value) (w w' : world) field :
  Bundled.truthy_BigInt (default_param VNull x) w = (Ok field, w') →
  kept x field ∧ w' = w.
Proof.
  rewrite truthy_BigInt_run. unfold kept.
  destruct (truthy x); [destruct (BigInt x) as [z | |] |];
    intros [= <- <-]; eauto.
Qed.

Lemma truthy_BigInt_returns (x : value) (w : world) :
  (truthy x = true → ∃ z, BigInt x = Ok z) →
  ∃ field, Bundled.truthy_BigInt (default_param VNull x) w = (Ok field, w).
Proof.
  rewrite truthy_BigInt_run. intros H.
  destruct (truthy x); [destruct (H eq_refl) as [z ->] |]; eauto.
Qed.

Lemma PrivateKey_new_Ok d p q phi publicKey (w : world) l w' :
  Bundled.PrivateKey_new d p q phi publicKey w = (Ok l, w') →
  ∃ sk, heap w' !! l = Some (OPrivateKey sk) ∧
        BigInt d = Ok (PrivateKey.d sk) ∧
        kept p (PrivateKey._p sk) ∧
        kept q (PrivateKey._q sk) ∧
        kept phi (PrivateKey._phi sk) ∧
        PrivateKey.publicKey sk = publicKey.
Proof.
  unfold Bundled.PrivateKey_new.
  intros (dz & w1 & Hd & H)%bind_Ok_inv.
  apply bind_Ok_inv in H as (p' & w2 & [Hp ->]%truthy_BigInt_kept & H).
  apply bind_Ok_inv in H as (q' & w3 & [Hq ->]%truthy_BigInt_kept & H).
  apply bind_Ok_inv in H as (f' & w4 & [Hf ->]%truthy_BigInt_kept & H).
  unfold lift in Hd. injection Hd as Hd <-.
  unfold alloc in H. injection H as <- <-. cbn.
  eexists. split; [apply lookup_insert_eq |]. cbn. auto.
Qed.

(** C10.  The [PrivateKey] constructor tests its optional arguments for
    truthiness, not for presence.  Whenever it returns, the new object
    holds [BigInt(d)] in [d], the [publicKey] argument as it is, and for
    each of [p], [q], [phi]: [null] if the argument is falsy and
    [BigInt(argument)] otherwise.  In particular [null], [undefined],
    the number 0 and [BigInt(0)] are all stored as absent.  [d] is
    coerced unconditionally: with [d = null] or [d = undefined] the
    constructor throws a [TypeError] and no key is produced.  It
    returns exactly when [BigInt(d)] and the coercion of every truthy
    optional argument succeed. *)
Theorem PrivateKey_constructor_tests_truthiness d p q phi publicKey w :
  (∀ l w', Bundled.PrivateKey_new d p q phi publicKey w = (Ok l, w') →
     ∃ sk, heap w' !! l = Some (OPrivateKey sk) ∧
           BigInt d = Ok (PrivateKey.d sk) ∧
           kept p (PrivateKey._p sk) ∧
           kept q (PrivateKey._q sk) ∧
           kept phi (PrivateKey._phi sk) ∧
           PrivateKey.publicKey sk = publicKey) ∧
  (∀ x field, x ∈ [VNull; VUndefined; VNumber 0; VBigInt 0] →
     kept x field → field = None) ∧
  (d = VNull ∨ d = VUndefined →
     Bundled.PrivateKey_new d p q phi publicKey w = (Throw TypeError, w)) ∧
  ((∃ l, result (Bundled.PrivateKey_new d p q phi publicKey) w = Ok l) ↔
   (∃ z, BigInt d = Ok z) ∧
   ∀ x, x ∈ [p; q; phi] → truthy x = true → ∃ z, BigInt x = Ok z).
Proof.
  split; [apply PrivateKey_new_Ok |]. split; [| split; [| split]].
  - intros x field Hx Hkept. unfold kept in Hkept.
    repeat (apply elem_of_cons in Hx as [-> | Hx]; [exact Hkept |]).
    now apply elem_of_nil in Hx.
  - intros [-> | ->]; reflexivity.
  - intros [l Hl]. unfold result in Hl.
    destruct (Bundled.PrivateKey_new d p q phi publicKey w) as [o w'] eqn:E.
    cbn in Hl. subst o.
    apply PrivateKey_new_Ok in E as (sk & _ & Hd & Hp & Hq & Hf & _).
    split; [eauto |]. intros x Hx Ht. unfold kept in Hp, Hq, Hf.
    apply elem_of_cons in Hx as [-> | Hx];
      [rewrite Ht in Hp; destruct Hp as (z & Hz & _); eauto |].
    apply elem_of_cons in Hx as [-> | Hx];
      [rewrite Ht in Hq; destruct Hq as (z & Hz & _); eauto |].
    apply elem_of_cons in Hx as [-> | Hx];
      [rewrite Ht in Hf; destruct Hf as (z & Hz & _); eauto |].
    now apply elem_of_nil in Hx.
  - intros [[dz Hd] Hopt]. unfold result, Bundled.PrivateKey_new.
    destruct (truthy_BigInt_returns p w (Hopt p ltac:(set_solver))) as [p' Hp].
    destruct (truthy_BigInt_returns q w (Hopt q ltac:(set_solver))) as [q' Hq].
    destruct (truthy_BigInt_returns phi w (Hopt phi ltac:(set_solver)))
      as [f' Hf].
    assert (Hd' : lift (BigInt d) w = (Ok dz, w)) by (unfold lift; now rewrite Hd).
    rewrite (bind_Ok _ _ _ _ _ Hd'), (bind_Ok _ _ _ _ _ Hp),
      (bind_Ok _ _ _ _ _ Hq), (bind_Ok _ _ _ _ _ Hf).
    unfold alloc. cbn. eauto.
Qed.

End Constructor.

(* ================================================================== *)
(** * 20. The theorems at work on concrete runs                        *)
(* ================================================================== *)

Section Runs.
Import Reference.

Lemma small_run_returns :
  @Bundled.generateRandomKeys provider certified 1 (Some 6)
    (start certified [11; 5])
  = (Ok (KeyPair.make 1%positive 2%positive), small_world).
Proof. vm_compute. reflexivity. Qed.

Lemma small_run_public : public_at small_world 1%positive small_public.
Proof. vm_compute. reflexivity. Qed.

Lemma small_run_private : private_at small_world 2%positive small_private small_public.
Proof.
  split; [vm_compute; reflexivity |].
  exists 1%positive. split; [reflexivity | vm_compute; reflexivity].
Qed.

(** The round trip on the 6-bit key pair, for every [m] below 55. *)
Lemma generated_keys_round_trip_witness :
  ∃ pk, public_at small_world 1%positive pk ∧
    ∀ m, 0 ≤ m < PublicKey.n pk →
      result (bind (Bundled.PublicKey_encrypt (BIP:=provider) 1%positive m)
                   (Bundled.PrivateKey_decrypt (BIP:=provider) 2%positive)) small_world
        = Ok m ∧
      result (bind (Bundled.PrivateKey_sign (BIP:=provider) 2%positive m)
                   (Bundled.PublicKey_verify (BIP:=provider) 1%positive)) small_world
        = Ok m.
Proof.
  exact (generated_keys_round_trip (BIP:=provider) (PS:=certified)
           1 (Some 6) (start certified [11; 5])
           (KeyPair.make 1%positive 2%positive) small_world
           reference_gcd reference_modInv reference_modPow
           certified_is_prime small_run_returns).
Defined.

(** The 6-bit key pair reports a 6-bit modulus. *)
Lemma generated_modulus_has_requested_size_witness :
  Bundled.PublicKey_bitLength (BIP:=provider) 1%positive small_world
    = (Ok 6, small_world) ∧
  Bundled.PrivateKey_bitLength (BIP:=provider) 2%positive small_world
    = (Ok 6, small_world) ∧
  2 ^ (6 - 1) ≤ 55 < 2 ^ 6.
Proof.
  destruct (generated_modulus_has_requested_size (BIP:=provider)
              (PS:=certified) 1 (Some 6) (start certified [11; 5])
              (KeyPair.make 1%positive 2%positive) small_world
              small_run_returns) as (Hpub & Hpriv & Hrange).
  split; [exact Hpub |]. split; [exact Hpriv |].
  apply (Hrange reference_bitLength small_public small_run_public).
  cbn. lia.
Defined.

(** The generation of the 6-bit key pair, step by step. *)
Lemma generation_follows_the_algorithm_witness :
  ∃ k wk p q s1 d sk,
    (k < 1)%nat ∧
    @after_rejected provider certified k 6 (start certified [11; 5]) = Some wk ∧
    Provider.prime (6 / 2 + 1) (entropy wk) = (Some p, s1) ∧
    Provider.prime (6 / 2) s1 = (Some q, entropy small_world) ∧
    p ≠ q ∧
    bitLength (p * q) = 6 ∧
    Z.gcd ((p - 1) * (q - 1)) 65537 = 1 ∧
    modInv 65537 ((p - 1) * (q - 1)) = Some d ∧
    private_at small_world 2%positive sk (PublicKey.make 65537 (p * q)) ∧
    PrivateKey.d sk = d ∧
    PrivateKey.publicKey sk = VRef 1%positive ∧
    trace small_world = [] ++ prime_requests (S k) 6
                  ++ [CallModInv 65537 ((p - 1) * (q - 1))].
Proof.
  exact (proj2 (generation_follows_the_algorithm (BIP:=provider)
                  (PS:=certified))
           1%nat (Some 6) (start certified [11; 5])
           (KeyPair.make 1%positive 2%positive) small_world small_run_returns).
Defined.

(** The four operations on the 6-bit key pair and the operand 42, and
    [encrypt] on a world that holds a public key and nothing else. *)
Lemma keyed_operations_are_one_modPow_witness :
  result (Bundled.PublicKey_encrypt (BIP:=provider) 1%positive 42) small_world
    = Ok (42 ^ 65537 `mod` 55) ∧
  result (Bundled.PrivateKey_sign (BIP:=provider) 2%positive 42) small_world
    = Ok (42 ^ 33 `mod` 55) ∧
  Bundled.PublicKey_encrypt (BIP:=provider) 1%positive 42 small_world
    = Bundled.PublicKey_verify (BIP:=provider) 1%positive 42 small_world ∧
  Bundled.PrivateKey_sign (BIP:=provider) 2%positive 42 small_world
    = Bundled.PrivateKey_decrypt (BIP:=provider) 2%positive 42 small_world ∧
  result (Bundled.PublicKey_encrypt (BIP:=provider) 1%positive 42) lone_key
    = Ok (42 ^ 65537 `mod` 55).
Proof.
  destruct (keyed_operations_are_one_modPow (BIP:=provider) (PS:=certified)
              small_world 42) as (Hpub & Hpriv & Hev & Hsd).
  destruct (Hpub 1%positive small_public small_run_public)
    as (_ & _ & Hpubv).
  destruct (Hpriv 2%positive small_private small_public small_run_private)
    as (_ & _ & Hprivv).
  assert (Hlone : public_at lone_key 1%positive small_public)
    by (vm_compute; reflexivity).
  destruct (keyed_operations_are_one_modPow (BIP:=provider) (PS:=certified)
              lone_key 42) as (Hpub' & _).
  destruct (Hpub' 1%positive small_public Hlone) as (_ & _ & Hlonev).
  split; [apply (Hpubv reference_modPow); cbn; lia |].
  split; [apply (Hprivv reference_modPow); cbn; lia |].
  split; [apply Hev |]. split; [apply Hsd |].
  apply (Hlonev reference_modPow); cbn; lia.
Defined.

(** An operand above the modulus: 100 is treated as [100 mod 55]. *)
Lemma out_of_range_operands_wrap_witness :
  result (perform (BIP:=provider) Encrypt 1%positive 100) small_world
    = result (perform (BIP:=provider) Encrypt 1%positive (100 `mod` 55)) small_world ∧
  ∃ c, result (perform (BIP:=provider) Encrypt 1%positive 100) small_world = Ok c ∧
       0 ≤ c < 55.
Proof.
  apply (out_of_range_operands_wrap (BIP:=provider) (PS:=certified)
           Encrypt small_world 1%positive 65537 55 100 reference_modPow).
  - exists small_public. split; [exact small_run_public | split; reflexivity].
  - lia.
  - lia.
  - lia.
Defined.

(** A second world holding the same public key elsewhere gives the
    same ciphertext. *)
Lemma keyed_operations_are_pure_witness :
  result (perform (BIP:=provider) Encrypt 1%positive 42) lone_key
  = result (perform (BIP:=provider) Encrypt 1%positive 42) small_world.
Proof.
  apply (proj2 (proj2 (keyed_operations_are_pure (BIP:=provider)
                         (PS:=certified) Encrypt 1%positive 42 small_world))
           _ 1%positive 65537 55).
  - exists small_public. split; [exact small_run_public | split; reflexivity].
  - exists small_public. split; [vm_compute; reflexivity | split; reflexivity].
Defined.

Lemma wide_run_returns :
  @Bundled.generateRandomKeys provider sized 1 (Some 128)
    (start sized [2 ^ 64 + 13; 2 ^ 63 + 29])
  = (Ok (KeyPair.make 1%positive 2%positive), wide_run.2).
Proof. vm_compute. reflexivity. Qed.

(** The 128-bit key pair: exponent 65537, below the modulus, coprime to
    the totient and inverted by the stored private exponent. *)
Lemma generated_exponent_is_invertible_witness :
  ∃ pk sk p q,
    public_at wide_run.2 1%positive pk ∧
    private_at wide_run.2 2%positive sk pk ∧
    PublicKey.e pk = 65537 ∧
    1 < PublicKey.e pk < PublicKey.n pk ∧
    PublicKey.n pk = p * q ∧
    PrivateKey._p sk = Some p ∧ PrivateKey._q sk = Some q ∧
    PrivateKey._phi sk = Some ((p - 1) * (q - 1)) ∧
    Z.gcd (PublicKey.e pk) ((p - 1) * (q - 1)) = 1 ∧
    (PublicKey.e pk * PrivateKey.d sk) `mod` ((p - 1) * (q - 1)) = 1.
Proof.
  assert (HB : 128 ≤ default 2048 (Some 128)) by (cbn; lia).
  exact (proj1 (generated_exponent_is_invertible (BIP:=provider) (PS:=sized)
                  1 (Some 128) (start sized [2 ^ 64 + 13; 2 ^ 63 + 29])
                  HB reference_gcd reference_modInv sized_has_bits)
           (KeyPair.make 1%positive 2%positive) wide_run.2
           wide_run_returns).
Defined.

Lemma partial_key_returns :
  @Bundled.PrivateKey_new certified (VBigInt 5) (VBigInt 0) VUndefined
    (VNumber 7) VNull (start certified [])
  = (Ok 1%positive, partial_key.2).
Proof. vm_compute. reflexivity. Qed.

(** A zero [p] and an omitted [q] are stored as absent, a non-zero
    [phi] is kept. *)
Lemma PrivateKey_constructor_tests_truthiness_witness :
  ∃ sk, heap partial_key.2 !! 1%positive = Some (OPrivateKey sk) ∧
        BigInt (VBigInt 5) = Ok (PrivateKey.d sk) ∧
        kept (VBigInt 0) (PrivateKey._p sk) ∧
        kept VUndefined (PrivateKey._q sk) ∧
        kept (VNumber 7) (PrivateKey._phi sk) ∧
        PrivateKey.publicKey sk = VNull.
Proof.
  exact (proj1 (PrivateKey_constructor_tests_truthiness (PS:=certified)
                  (VBigInt 5) (VBigInt 0) VUndefined (VNumber 7) VNull
                  (start certified []))
           1%positive partial_key.2 partial_key_returns).
Defined.

End Runs.

(* ================================================================== *)
(** * 21. Constructors and accessors                                   *)
(* ================================================================== *)

Section ConstructorsAndAccessors.
Context `{BIP : Provider.BigIntegerProvider} `{PS : Provider.PrimeSource}.

Lemma fresh_unused (h : gmap loc object) : h !! fresh (dom h) = None.
Proof. apply not_elem_of_dom, is_fresh. Qed.

Lemma bind_Throw_inv {A B} (c : M A) (k : A → M B) (w : world) err w' :
  bind c k w = (Throw err, w') →
  c w = (Throw err, w') ∨ ∃ a w1, c w = (Ok a, w1) ∧ k a w1 = (Throw err, w').
Proof.
  unfold bind. destruct (c w) as [[a | err0 |] w1]; [eauto | | discriminate].
  intros [= <- <-]. now left.
Qed.

Lemma BigInt_not_Pending v : BigInt v ≠ Pending.
Proof. now destruct v. Qed.

(** X1.  [new PublicKey(e, n)] coerces both arguments with [BigInt], [e]
    first.  When it returns, the new object sits at an address that was
    unused, holds [BigInt(e)] and [BigInt(n)], and nothing else in the
    world has changed; when it throws, the error is that of the first
    coercion that fails and the world is as before; and it returns
    exactly when both coercions succeed. *)
Theorem PublicKey_constructor_coerces_both (e n : value) (w : world) :
  (∀ l w', Bundled.PublicKey_new e n w = (Ok l, w') →
     heap w !! l = None ∧
     ∃ ez nz, BigInt e = Ok ez ∧ BigInt n = Ok nz ∧
              w' = with_public w l (PublicKey.make ez nz)) ∧
  (∀ err w', Bundled.PublicKey_new e n w = (Throw err, w') →
     w' = w ∧
     (BigInt e = Throw err ∨ (∃ ez, BigInt e = Ok ez) ∧ BigInt n = Throw err)) ∧
  ((∃ l, result (Bundled.PublicKey_new e n) w = Ok l) ↔
   (∃ ez, BigInt e = Ok ez) ∧ (∃ nz, BigInt n = Ok nz)).
Proof.
  unfold result, Bundled.PublicKey_new, bind, lift, alloc, with_public.
  pose proof (BigInt_not_Pending e) as He.
  pose proof (BigInt_not_Pending n) as Hn.
  destruct (BigInt e) as [ez | erre |]; [| | easy];
    (destruct (BigInt n) as [nz | errn |]; [| | easy]); cbn.
  - split; [| split].
    + intros l w' [= <- <-]. split; [apply fresh_unused | eauto].
    + discriminate.
    + split; eauto.
  - split; [| split].
    + discriminate.
    + intros err w' [= <- <-]. split; [reflexivity |]. right. eauto.
    + split; [intros [l [=]] | intros [_ [nz [=]]]].
  - split; [| split].
    + discriminate.
    + intros err w' [= <- <-]. split; [reflexivity |]. now left.
    + split; [intros [l [=]] | intros [[ez [=]] _]].
  - split; [| split].
    + discriminate.
    + intros err w' [= <- <-]. split; [reflexivity |]. now left.
    + split; [intros [l [=]] | intros [[ez [=]] _]].
Qed.

Lemma truthy_BigInt_Throw (x : value) (w w' : world) err :
  Bundled.truthy_BigInt (default_param VNull x) w = (Throw err, w') →
  w' = w ∧ truthy x = true ∧ BigInt x = Throw err.
Proof.
  rewrite truthy_BigInt_run.
  destruct (truthy x); [destruct (BigInt x) as [z | err0 |] |];
    intros [= <- <-]; auto.
Qed.

(** X2.  [new PrivateKey(...)] fails cleanly and builds afresh.  When it
    throws, the world is as before and the error is that of [BigInt(d)]
    or of the [BigInt] coercion of a truthy [p], [q] or [phi].  In
    particular, with a [bigint] for [d], a stored key (a [PublicKey] or
    [PrivateKey] instance) passed for [p] is a [SyntaxError].  When it
    returns, the address of the new key was unused and every other
    address holds what it held. *)
Theorem PrivateKey_constructor_fails_cleanly d p q phi publicKey (w : world) :
  (∀ err w', Bundled.PrivateKey_new d p q phi publicKey w = (Throw err, w') →
     w' = w ∧
     (BigInt d = Throw err ∨
      ∃ x, x ∈ [p; q; phi] ∧ truthy x = true ∧ BigInt x = Throw err)) ∧
  (∀ l w', Bundled.PrivateKey_new d p q phi publicKey w = (Ok l, w') →
     heap w !! l = None ∧ ∀ l', l' ≠ l → heap w' !! l' = heap w !! l') ∧
  (∀ z l key, d = VBigInt z → p = VRef l → heap w !! l = Some key →
     Bundled.PrivateKey_new d p q phi publicKey w = (Throw SyntaxError, w)).
Proof.
  split; [| split].
  - intros err w'. unfold Bundled.PrivateKey_new.
    intros [Hd | (dz & w1 & Hd & H)]%bind_Throw_inv.
    { unfold lift in Hd. injection Hd as Hd <-. auto. }
    unfold lift in Hd. injection Hd as Hd <-.
    apply bind_Throw_inv in H
      as [(-> & Ht & Hx)%truthy_BigInt_Throw
         | (p' & w2 & [_ ->]%truthy_BigInt_kept & H)].
    { split; [reflexivity |]. right. exists p. split; [set_solver | auto]. }
    apply bind_Throw_inv in H
      as [(-> & Ht & Hx)%truthy_BigInt_Throw
         | (q' & w3 & [_ ->]%truthy_BigInt_kept & H)].
    { split; [reflexivity |]. right. exists q. split; [set_solver | auto]. }
    apply bind_Throw_inv in H
      as [(-> & Ht & Hx)%truthy_BigInt_Throw
         | (f' & w4 & [_ ->]%truthy_BigInt_kept & H)].
    { split; [reflexivity |]. right. exists phi. split; [set_solver | auto]. }
    unfold alloc in H. discriminate.
  - intros l w'. unfold Bundled.PrivateKey_new.
    intros (dz & w1 & Hd & H)%bind_Ok_inv.
    apply bind_Ok_inv in H as (p' & w2 & [_ ->]%truthy_BigInt_kept & H).
    apply bind_Ok_inv in H as (q' & w3 & [_ ->]%truthy_BigInt_kept & H).
    apply bind_Ok_inv in H as (f' & w4 & [_ ->]%truthy_BigInt_kept & H).
    unfold lift in Hd. injection Hd as Hd <-.
    unfold alloc in H. injection H as <- <-. cbn.
    split; [apply fresh_unused |].
    intros l' Hne. now apply lookup_insert_ne.
  - intros z l key -> -> _. reflexivity.
Qed.

(** X3.  The constructor does not validate [publicKey].  A private key
    built with [publicKey] null or undefined is accepted, and then every
    accessor and operation on it ([bitLength], [n], [sign], [decrypt])
    throws a [TypeError] before any exponentiation is requested: the
    world, trace included, is left as it was. *)
Theorem PrivateKey_without_publicKey_throws d p q phi publicKey (w : world) l w' :
  publicKey = VNull ∨ publicKey = VUndefined →
  Bundled.PrivateKey_new d p q phi publicKey w = (Ok l, w') →
  Bundled.PrivateKey_bitLength l w' = (Throw TypeError, w') ∧
  Bundled.PrivateKey_n l w' = (Throw TypeError, w') ∧
  ∀ m, Bundled.PrivateKey_sign l m w' = (Throw TypeError, w') ∧
       Bundled.PrivateKey_decrypt l m w' = (Throw TypeError, w').
Proof.
  intros Hnone (sk & Hsk & _ & _ & _ & _ & Hpub)%PrivateKey_new_Ok.
  assert (Hthis : this_PrivateKey l w' = (Ok sk, w')).
  { unfold this_PrivateKey, bind, load. now rewrite Hsk. }
  assert (Hn : get_n (PrivateKey.publicKey sk) w' = (Throw TypeError, w')).
  { rewrite Hpub. now destruct Hnone as [-> | ->]. }
  unfold Bundled.PrivateKey_bitLength, Bundled.PrivateKey_n,
    Bundled.PrivateKey_sign, Bundled.PrivateKey_decrypt.
  repeat split; intros; rewrite (bind_Ok _ _ _ _ _ Hthis);
    unfold bind; now rewrite ?Hn.
Qed.

(** X4.  A private key reads its modulus through its [publicKey]
    reference.  Its [n] accessor returns the public key's [n], its
    [bitLength] accessor returns what the public key's does, and after
    the object behind the reference is given other fields the private
    key's [n] and [sign] work with the new modulus: the modulus is
    shared, not copied. *)
Theorem private_accessors_read_through_reference (w : world) priv sk l pk :
  heap w !! priv = Some (OPrivateKey sk) →
  PrivateKey.publicKey sk = VRef l →
  public_at w l pk →
  Bundled.PrivateKey_n priv w = (Ok (PublicKey.n pk), w) ∧
  Bundled.PrivateKey_bitLength priv w = Bundled.PublicKey_bitLength l w ∧
  ∀ pk2, Bundled.PrivateKey_n priv (with_public w l pk2)
           = (Ok (PublicKey.n pk2), with_public w l pk2) ∧
         ∀ m, Bundled.PrivateKey_sign priv m (with_public w l pk2)
              = crypto.modPow m (PrivateKey.d sk) (PublicKey.n pk2)
                  (with_public w l pk2).
Proof.
  intros Hsk Href Hpk.
  assert (Hat : private_at w priv sk pk).
  { split; [exact Hsk |]. now exists l. }
  split; [| split].
  - unfold Bundled.PrivateKey_n.
    rewrite (bind_Ok _ _ _ _ _ (this_PrivateKey_at _ _ _ _ Hat)).
    apply (get_n_at w priv sk pk Hat).
  - unfold Bundled.PrivateKey_bitLength, Bundled.PublicKey_bitLength.
    rewrite (bind_Ok _ _ _ _ _ (this_PrivateKey_at _ _ _ _ Hat)).
    rewrite (bind_Ok _ _ _ _ _ (get_n_at _ _ _ _ Hat)).
    now rewrite (bind_Ok _ _ _ _ _ (this_PublicKey_at _ _ _ Hpk)).
  - intros pk2.
    assert (Hne : l ≠ priv).
    { intros ->. unfold public_at in Hpk. congruence. }
    assert (Hat2 : private_at (with_public w l pk2) priv sk pk2).
    { split; cbn.
      - now rewrite lookup_insert_ne.
      - exists l. split; [exact Href | apply lookup_insert_eq]. }
    split.
    + unfold Bundled.PrivateKey_n.
      rewrite (bind_Ok _ _ _ _ _ (this_PrivateKey_at _ _ _ _ Hat2)).
      apply (get_n_at _ priv sk pk2 Hat2).
    + intros m. apply (sign_run _ priv sk pk2 m Hat2).
Qed.

End ConstructorsAndAccessors.

(* ================================================================== *)
(** * 22. Arithmetic of the keyed operations                           *)
(* ================================================================== *)

Section OperationArithmetic.
Context `{BIP : Provider.BigIntegerProvider} `{PS : Provider.PrimeSource}.

(** The round trip on any stored pair of matching keys, for any integer
    operand. *)
Lemma round_trip_run (w : world) pub priv pk sk spk p q m :
  Contract.modPow_exponentiates →
  public_at w pub pk → private_at w priv sk spk →
  PublicKey.n pk = p * q → PublicKey.n spk = p * q →
  Z.prime p → Z.prime q → p ≠ q →
  0 ≤ PublicKey.e pk → 0 ≤ PrivateKey.d sk →
  (PublicKey.e pk * PrivateKey.d sk) `mod` ((p - 1) * (q - 1))
    = 1 `mod` ((p - 1) * (q - 1)) →
  result (bind (Bundled.PublicKey_encrypt pub m)
               (Bundled.PrivateKey_decrypt priv)) w = Ok (m `mod` (p * q)) ∧
  result (bind (Bundled.PrivateKey_sign priv m)
               (Bundled.PublicKey_verify pub)) w = Ok (m `mod` (p * q)).
Proof.
  intros Hpow Hpk Hsk Hn Hn' Hp Hq Hne He Hd Hed.
  pose proof (Z.prime_ge_2 p Hp) as Hp2.
  pose proof (Z.prime_ge_2 q Hq) as Hq2.
  assert (Hpos : 0 < p * q) by nia.
  split; unfold result, bind.
  - rewrite (encrypt_run _ _ _ m Hpk), modPow_run, (Hpow _ _ _) by lia.
    cbn. erewrite decrypt_run
      by (eapply private_at_heap; [| exact Hsk]; reflexivity).
    rewrite modPow_run, (Hpow _ _ _) by lia. cbn.
    rewrite Hn, Hn'. f_equal.
    now apply rsa_exponents_cancel.
  - erewrite sign_run by exact Hsk.
    rewrite modPow_run, (Hpow _ _ _) by lia.
    cbn. erewrite verify_run
      by (eapply public_at_heap; [| exact Hpk]; reflexivity).
    rewrite modPow_run, (Hpow _ _ _) by lia. cbn.
    rewrite Hn, Hn'. f_equal.
    apply rsa_exponents_cancel; try assumption. now rewrite Z.mul_comm.
Qed.

(** X5.  A generated key pair round-trips every integer to its residue:
    with genuine primes, for any integer [m] whatever its sign or size,
    [privateKey.decrypt(publicKey.encrypt(m))] and
    [publicKey.verify(privateKey.sign(m))] return [m mod n].  An operand
    outside [0, n) is therefore not recovered: its residue is. *)
Theorem generated_keys_round_trip_to_residue fuel B w kp w' :
  Contract.gcd_is_gcd →
  Contract.modInv_inverts →
  Contract.modPow_exponentiates →
  Contract.prime_is_prime →
  Bundled.generateRandomKeys fuel B w = (Ok kp, w') →
  ∃ pk, public_at w' (KeyPair.publicKey kp) pk ∧ 1 < PublicKey.n pk ∧
    ∀ m : Z,
      result (bind (Bundled.PublicKey_encrypt (KeyPair.publicKey kp) m)
                   (Bundled.PrivateKey_decrypt (KeyPair.privateKey kp))) w'
        = Ok (m `mod` PublicKey.n pk) ∧
      result (bind (Bundled.PrivateKey_sign (KeyPair.privateKey kp) m)
                   (Bundled.PublicKey_verify (KeyPair.publicKey kp))) w'
        = Ok (m `mod` PublicKey.n pk).
Proof.
  intros Hgcd [_ Hinv] Hpow Hprime
    (p & q & d & w1 & Hloop & Hd & Hpk & Hsk & _)%generateRandomKeys_Ok.
  pose proof (generated_accepted _ _ _ _ _ _ Hloop) as (Hne & _ & Hco).
  apply generated_sampled in Hloop as (s & s1 & s2 & Hp & Hq).
  apply Hprime in Hp, Hq.
  pose proof (totient_ge_2 p q Hp Hq Hne) as Hphi.
  pose proof (Z.prime_ge_2 p Hp) as Hp2.
  pose proof (Z.prime_ge_2 q Hq) as Hq2.
  rewrite Hgcd, Z.gcd_comm in Hco.
  destruct (Hinv 65537 ((p - 1) * (q - 1)) ltac:(lia) Hco)
    as (d' & Hd' & Hrange & Hed).
  rewrite Hd in Hd'. injection Hd' as <-.
  eexists. split; [exact Hpk |]. cbn. split; [nia |]. intros m.
  eapply round_trip_run; try eassumption; try reflexivity; cbn; lia.
Qed.

(** X6.  Keys rebuilt with the constructors work like generated ones,
    with any exponent pair and without the factorization.  For distinct
    primes [p], [q] and natural numbers [e], [d] with
    [e * d = 1 mod (p-1)(q-1)], building [new PublicKey(e, p*q)] and then
    [new PrivateKey(d, undefined, undefined, undefined, publicKey)]
    returns a pair whose private key stores no [p], [q] or [phi], and on
    which encrypt/decrypt and sign/verify round-trip every integer to
    its residue. *)
Theorem reconstructed_keys_round_trip (e d p q : Z) (w : world) :
  Contract.modPow_exponentiates →
  Z.prime p → Z.prime q → p ≠ q → 0 ≤ e → 0 ≤ d →
  (e * d) `mod` ((p - 1) * (q - 1)) = 1 `mod` ((p - 1) * (q - 1)) →
  ∃ kp w',
    reconstruct (VBigInt e) (VBigInt (p * q)) (VBigInt d) w = (Ok kp, w') ∧
    private_at w' (KeyPair.privateKey kp)
      (PrivateKey.make d None None None (VRef (KeyPair.publicKey kp)))
      (PublicKey.make e (p * q)) ∧
    ∀ m : Z,
      result (bind (Bundled.PublicKey_encrypt (KeyPair.publicKey kp) m)
                   (Bundled.PrivateKey_decrypt (KeyPair.privateKey kp))) w'
        = Ok (m `mod` (p * q)) ∧
      result (bind (Bundled.PrivateKey_sign (KeyPair.privateKey kp) m)
                   (Bundled.PublicKey_verify (KeyPair.publicKey kp))) w'
        = Ok (m `mod` (p * q)).
Proof.
  intros Hpow Hp Hq Hne He Hd Hed.
  set (l1 := fresh (dom (heap w))).
  set (h1 := <[l1 := OPublicKey (PublicKey.make e (p * q))]> (heap w)).
  set (l2 := fresh (dom h1)).
  set (sk := PrivateKey.make d None None None (VRef l1)).
  exists (KeyPair.make l1 l2),
         (World (<[l2 := OPrivateKey sk]> h1) (entropy w) (trace w)).
  assert (Hl : l2 ≠ l1).
  { intros Heq. apply (is_fresh (dom h1)). fold l2. rewrite Heq.
    unfold h1. rewrite dom_insert_L. set_solver. }
  assert (Hpk : (<[l2 := OPrivateKey sk]> h1) !! l1
                = Some (OPublicKey (PublicKey.make e (p * q)))).
  { rewrite lookup_insert_ne by exact Hl. apply lookup_insert_eq. }
  assert (Hsk : private_at
                  (World (<[l2 := OPrivateKey sk]> h1) (entropy w) (trace w))
                  l2 sk (PublicKey.make e (p * q))).
  { split; cbn; [apply lookup_insert_eq |]. exists l1. now split. }
  split; [reflexivity |]. split; [exact Hsk |]. intros m.
  eapply round_trip_run; try eassumption; try reflexivity; cbn; assumption.
Qed.

(** X7.  Raw RSA is multiplicative.  For a stored key with a natural
    exponent and a positive modulus [n], each of [encrypt], [verify],
    [sign] and [decrypt] sends a product to the product of the images
    modulo [n]: what it returns on [a * b] is [(ca * cb) mod n] for the
    values [ca], [cb] it returns on [a] and [b]. *)
Theorem keyed_operations_are_multiplicative op (w : world) this ex n a b :
  Contract.modPow_exponentiates →
  holds op w this ex n →
  0 ≤ ex → 0 < n →
  ∃ ca cb,
    result (perform op this a) w = Ok ca ∧
    result (perform op this b) w = Ok cb ∧
    result (perform op this (a * b)) w = Ok ((ca * cb) `mod` n).
Proof.
  intros Hc Hk Hex Hn. unfold result.
  rewrite !(perform_run op w this ex n) by exact Hk.
  rewrite !modPow_run, !(Hc _ _ _ Hex Hn). cbn.
  eexists _, _. split; [reflexivity |]. split; [reflexivity |].
  f_equal. rewrite Z.pow_mul_l. now rewrite <- Z.mul_mod by lia.
Qed.

(** X8.  Three operands are never hidden.  For a stored key with a
    positive exponent and a modulus [n > 1], each operation returns 0 on
    0 and 1 on 1; and when the exponent is odd (as 65537 is) it returns
    [n - 1] on [n - 1]. *)
Theorem keyed_operations_fix_trivial_operands op (w : world) this ex n :
  Contract.modPow_exponentiates →
  holds op w this ex n →
  0 < ex → 1 < n →
  result (perform op this 0) w = Ok 0 ∧
  result (perform op this 1) w = Ok 1 ∧
  (Z.odd ex = true → result (perform op this (n - 1)) w = Ok (n - 1)).
Proof.
  intros Hc Hk Hex Hn. unfold result.
  rewrite !(perform_run op w this ex n) by exact Hk.
  rewrite !modPow_run, !(Hc _ _ _) by lia. cbn.
  split; [| split].
  - rewrite Z.pow_0_l by lia. now rewrite Z.mod_0_l by lia.
  - rewrite Z.pow_1_l by lia. now rewrite Z.mod_1_l by lia.
  - intros Hodd. f_equal.
    assert (Hm : (- (1)) `mod` n = n - 1).
    { replace (- (1)) with ((n - 1) + (- (1)) * n) by lia.
      rewrite Z.mod_add by lia. apply Z.mod_small. lia. }
    rewrite <- Hm, Z.mod_pow_l.
    rewrite Z.pow_opp_odd by now apply Z.odd_spec.
    now rewrite Z.pow_1_l by lia.
Qed.

End OperationArithmetic.

(* ================================================================== *)
(** * 23. More on generation                                           *)
(* ================================================================== *)

Section GenerationExtras.
Context `{BIP : Provider.BigIntegerProvider} `{PS : Provider.PrimeSource}.

(** A pass, however it ends, leaves the heap alone. *)
Lemma sample_keeps_heap B (w : world) : heap (Bundled.sample B w).2 = heap w.
Proof.
  unfold Bundled.sample, bind. rewrite prime_run. cbn.
  destruct (Provider.prime (B / 2 + 1) (entropy w)) as [[p |] s1]; cbn;
    [| reflexivity].
  rewrite prime_run. cbn.
  destruct (Provider.prime (B / 2) s1) as [[q |] s2]; reflexivity.
Qed.

Lemma do_while_keeps_heap fuel B (w : world) :
  heap (do_while fuel (Bundled.sample B) (Bundled.again B) w).2 = heap w.
Proof.
  revert w. induction fuel as [| fuel IH]; intros w; cbn; [reflexivity |].
  unfold bind at 1. pose proof (sample_keeps_heap B w) as Hs.
  destruct (Bundled.sample B w) as [[r | err |] w1]; cbn in *;
    [| assumption ..].
  destruct (Bundled.again B r); [| exact Hs]. now rewrite IH.
Qed.

(** Which request a failed pass failed on. *)
Lemma sample_Throw_request B (w : world) err w1 :
  Bundled.sample B w = (Throw err, w1) →
  err = Failed (CallPrime (B / 2 + 1)) ∨ err = Failed (CallPrime (B / 2)).
Proof.
  unfold Bundled.sample, bind. rewrite prime_run. cbn.
  destruct (Provider.prime (B / 2 + 1) (entropy w)) as [[p |] s1]; cbn.
  - rewrite prime_run. cbn.
    destruct (Provider.prime (B / 2) s1) as [[q |] s2]; cbn.
    + discriminate.
    + intros [= <- _]. now right.
  - intros [= <- _]. now left.
Qed.

Lemma do_while_Throw_request fuel B (w : world) err w1 :
  do_while fuel (Bundled.sample B) (Bundled.again B) w = (Throw err, w1) →
  err = Failed (CallPrime (B / 2 + 1)) ∨ err = Failed (CallPrime (B / 2)).
Proof.
  revert w. induction fuel as [| fuel IH]; intros w; cbn.
  - discriminate.
  - unfold bind at 1.
    destruct (Bundled.sample B w) as [[r0 | err0 |] w0] eqn:E.
    + destruct (Bundled.again B r0); [apply IH | discriminate].
    + intros [= <- _]. now apply sample_Throw_request in E.
    + discriminate.
Qed.

Lemma prime_requests_only k B c :
  c ∈ prime_requests k B →
  c = CallPrime (B / 2 + 1) ∨ c = CallPrime (B / 2).
Proof.
  unfold prime_requests. induction k as [| k IH]; cbn.
  - intros H. now apply elem_of_nil in H.
  - intros [-> | [-> | H]%elem_of_cons]%elem_of_cons; auto.
Qed.

(** X9.  A generation that does not return leaves no key behind, and it
    can only fail through a collaborator.  If the promise rejects, the
    heap is as before and the error is the failure of one of the two
    prime requests of the requested sizes, or the failure of
    [modInv(65537, (p-1)(q-1))] on the accepted pass; the constructors
    never throw here.  While it is pending, the heap is as before and
    the only requests sent so far are prime requests of the two
    requested sizes: [modInv] has not been asked for. *)
Theorem generation_failure_leaves_no_key fuel B (w : world) :
  (∀ err w', Bundled.generateRandomKeys fuel B w = (Throw err, w') →
     heap w' = heap w ∧
     (err = Failed (CallPrime (default 2048 B / 2 + 1)) ∨
      err = Failed (CallPrime (default 2048 B / 2)) ∨
      ∃ p q, err = Failed (CallModInv 65537 ((p - 1) * (q - 1))) ∧
             Provider.modInv 65537 ((p - 1) * (q - 1)) = None ∧
             Bundled.again (default 2048 B)
               (p, q, p * q, (p - 1) * (q - 1)) = false)) ∧
  (∀ w', Bundled.generateRandomKeys fuel B w = (Pending, w') →
     heap w' = heap w ∧
     ∃ sent, trace w' = trace w ++ sent ∧
       ∀ c, c ∈ sent →
         c = CallPrime (default 2048 B / 2 + 1) ∨
         c = CallPrime (default 2048 B / 2)).
Proof.
  pose proof (do_while_keeps_heap fuel (default 2048 B) w) as Hh.
  split.
  - intros err w'. rewrite generateRandomKeys_unfold. unfold bind at 1.
    destruct (do_while _ _ _ w) as [[r | err0 |] w1] eqn:Hloop; cbn in Hh.
    + pose proof Hloop as (k & wk & _ & _ & Hs & Ha)%do_while_Ok.
      apply sample_Ok in Hs as (p & q & s1 & s2 & _ & _ & -> & _).
      cbv beta iota. unfold bind. rewrite modInv_run.
      destruct (Provider.modInv 65537 ((p - 1) * (q - 1))) eqn:Hd;
        cbv beta iota.
      * rewrite construct_run. discriminate.
      * intros [= <- <-]. cbn. split; [exact Hh |].
        right. right. now exists p, q.
    + intros [= <- <-]. split; [exact Hh |].
      apply do_while_Throw_request in Hloop as [-> | ->]; auto.
    + discriminate.
  - intros w'. rewrite generateRandomKeys_unfold. unfold bind at 1.
    destruct (do_while _ _ _ w) as [[r | err0 |] w1] eqn:Hloop; cbn in Hh.
    + destruct r as [[[p q] n] phi]. unfold bind. rewrite modInv_run.
      destruct (Provider.modInv 65537 phi); cbv beta iota;
        [rewrite construct_run |]; discriminate.
    + discriminate.
    + intros [= <-]. split; [exact Hh |].
      apply do_while_Pending in Hloop.
      apply after_rejected_state in Hloop as [_ Ht].
      exists (prime_requests fuel (default 2048 B)).
      split; [exact Ht |].
      apply prime_requests_only.
Qed.

(** Existing objects survive a generation, whatever its outcome. *)
Lemma generation_keeps_objects fuel B (w : world) l o :
  heap w !! l = Some o →
  heap (Bundled.generateRandomKeys fuel B w).2 !! l = Some o.
Proof.
  intros Hl. pose proof (do_while_keeps_heap fuel (default 2048 B) w) as Hh.
  rewrite generateRandomKeys_unfold. unfold bind at 1.
  destruct (do_while _ _ _ w) as [[r | err0 |] w1] eqn:Hloop; cbn in Hh;
    [| cbn; congruence ..].
  destruct r as [[[p q] n] phi]. unfold bind. rewrite modInv_run.
  destruct (Provider.modInv 65537 phi) as [d |]; cbv beta iota;
    [| cbn; congruence].
  rewrite construct_run. cbn.
  rewrite <- Hh in Hl.
  set (l1 := fresh (dom (heap w1))).
  set (h1 := <[l1 := _]> (heap w1)).
  assert (Hl1 : l1 ≠ l).
  { intros Heq. pose proof (fresh_unused (heap w1)) as Hf.
    fold l1 in Hf. congruence. }
  assert (Hl' : h1 !! l = Some o).
  { unfold h1. now rewrite lookup_insert_ne. }
  rewrite lookup_insert_ne; [exact Hl' |].
  intros Heq. pose proof (fresh_unused h1) as Hf. congruence.
Qed.

(** X10.  Generating another key pair does not disturb the keys that
    exist.  Whatever the outcome of [generateRandomKeys], a key stored
    before the call holds the same exponent and modulus after it, and
    every keyed operation on it returns what it returned before. *)
Theorem generation_preserves_existing_keys fuel B (w : world) op this ex n :
  holds op w this ex n →
  holds op (Bundled.generateRandomKeys fuel B w).2 this ex n ∧
  ∀ x, result (perform op this x) (Bundled.generateRandomKeys fuel B w).2
       = result (perform op this x) w.
Proof.
  intros Hk.
  assert (Hk' : holds op (Bundled.generateRandomKeys fuel B w).2 this ex n).
  { destruct op; cbn in *.
    - destruct Hk as (k & H & He & Hn). exists k. split; [| auto].
      now apply generation_keeps_objects.
    - destruct Hk as (k & H & He & Hn). exists k. split; [| auto].
      now apply generation_keeps_objects.
    - destruct Hk as (k & pk & [H (l' & Hr & Hp)] & He & Hn).
      exists k, pk. split; [| auto]. split.
      + now apply generation_keeps_objects.
      + exists l'. split; [exact Hr | now apply generation_keeps_objects].
    - destruct Hk as (k & pk & [H (l' & Hr & Hp)] & He & Hn).
      exists k, pk. split; [| auto]. split.
      + now apply generation_keeps_objects.
      + exists l'. split; [exact Hr | now apply generation_keeps_objects]. }
  split; [exact Hk' |]. intros x. unfold result.
  rewrite (perform_run op _ this ex n x Hk').
  rewrite (perform_run op _ this ex n x Hk).
  now rewrite !modPow_run.
Qed.

(** X11.  The first prime is the larger one.  When the prime source
    honours the requested sizes and at least 2 bits are asked for, every
    pass of the loop draws [q < p], so the [p === q] test never fires;
    the private key of a returned pair stores both, with [0 < q < p] and
    [n = p * q]. *)
Theorem sampled_primes_are_ordered B :
  Contract.prime_has_bits →
  2 ≤ default 2048 B →
  (∀ (w : world) p q n phi w1,
     Bundled.sample (default 2048 B) w = (Ok (p, q, n, phi), w1) →
     0 < q < p) ∧
  (∀ fuel (w : world) kp w',
     Bundled.generateRandomKeys fuel B w = (Ok kp, w') →
     ∃ sk pk p q,
       private_at w' (KeyPair.privateKey kp) sk pk ∧
       PrivateKey._p sk = Some p ∧ PrivateKey._q sk = Some q ∧
       0 < q < p ∧ PublicKey.n pk = p * q).
Proof.
  intros Hsize HB.
  assert (Hb : 1 ≤ default 2048 B / 2) by (apply Z.div_le_lower_bound; lia).
  assert (Hord : ∀ (w : world) p q n phi w1,
            Bundled.sample (default 2048 B) w = (Ok (p, q, n, phi), w1) →
            0 < q < p).
  { intros w p q n phi w1
      (p' & q' & s1 & s2 & Hp & Hq & [= <- <- _ _] & _)%sample_Ok.
    set (b := default 2048 B / 2) in *.
    apply Hsize in Hp as [Hp _]; [| lia].
    apply Hsize in Hq as [Hq Hq']; [| lia].
    replace (b + 1 - 1) with b in Hp by lia.
    pose proof (Z.pow_pos_nonneg 2 (b - 1) ltac:(lia) ltac:(lia)). lia. }
  split; [exact Hord |].
  intros fuel w kp w'
    (p & q & d & w1 & Hloop & _ & _ & Hsk & _)%generateRandomKeys_Ok.
  apply do_while_Ok in Hloop as (k & wk & _ & _ & Hs & _).
  apply Hord in Hs.
  destruct (Z.eqb_spec p 0) as [? | _]; [lia |].
  destruct (Z.eqb_spec q 0) as [? | _]; [lia |].
  eexists _, _, p, q. split; [exact Hsk |]. cbn. auto.
Qed.

End GenerationExtras.

Section BitLengthGate.
Context `{BIP : Provider.BigIntegerProvider} `{PS : Provider.PrimeSource}.

Lemma counted_bits_iff (x b : Z) :
  0 < x → 0 < b → (Z.log2 x + 1 = b ↔ 2 ^ (b - 1) ≤ x < 2 ^ b).
Proof.
  intros Hx Hb. split; [now apply log2_bits |].
  intros H. rewrite (Z.log2_unique x (b - 1)); [lia | lia |].
  now replace (Z.succ (b - 1)) with b by lia.
Qed.

(** The product of the two sampled integers is within one bit of the
    requested size. *)
Lemma sampled_product_range B (w : world) p q n phi w1 :
  Contract.prime_has_bits →
  1 ≤ B / 2 →
  Bundled.sample B w = (Ok (p, q, n, phi), w1) →
  2 ^ (2 * (B / 2) - 1) ≤ n < 2 ^ (2 * (B / 2) + 1).
Proof.
  intros Hsize Hb
    (p' & q' & s1 & s2 & Hp & Hq & [= <- <- -> _] & _)%sample_Ok.
  set (b := B / 2) in *.
  apply Hsize in Hp as [Hp Hp']; [| lia].
  apply Hsize in Hq as [Hq Hq']; [| lia].
  replace (b + 1 - 1) with b in Hp by lia.
  replace (2 * b - 1) with (b + (b - 1)) by lia.
  replace (2 * b + 1) with ((b + 1) + b) by lia.
  rewrite (Z.pow_add_r 2 b (b - 1)), (Z.pow_add_r 2 (b + 1) b) by lia.
  pose proof (Z.pow_pos_nonneg 2 b ltac:(lia) ltac:(lia)).
  pose proof (Z.pow_pos_nonneg 2 (b - 1) ltac:(lia) ltac:(lia)).
  split.
  - apply Z.mul_le_mono_nonneg; lia.
  - apply Z.mul_lt_mono_nonneg; lia.
Qed.

(** X12.  The bit-length test of the loop can only miss by one bit, and
    on one side.  When the prime source honours the requested sizes and
    [bitLength] counts bits, the product [n] of a pass lies in
    [2^(2b-1), 2^(2b+1)) for [b = floor(B/2) >= 1]; so for an even [B]
    the test [bitLength(n) == B] holds exactly when [n < 2^B] (the only
    miss is one bit too long), and for an odd [B] exactly when
    [2^(B-1) <= n] (the only miss is one bit too short). *)
Theorem bit_length_gate_misses_by_one_bit B (w : world) p q n phi w1 :
  Contract.prime_has_bits →
  Contract.bitLength_counts_bits →
  1 ≤ B / 2 →
  Bundled.sample B w = (Ok (p, q, n, phi), w1) →
  2 ^ (2 * (B / 2) - 1) ≤ n < 2 ^ (2 * (B / 2) + 1) ∧
  (Z.even B = true → (Provider.bitLength n = B ↔ n < 2 ^ B)) ∧
  (Z.odd B = true → (Provider.bitLength n = B ↔ 2 ^ (B - 1) ≤ n)).
Proof.
  intros Hsize Hcount Hb Hs.
  pose proof (sampled_product_range B w p q n phi w1 Hsize Hb Hs) as Hr.
  split; [exact Hr |].
  assert (Hn : 0 < n).
  { pose proof (Z.pow_pos_nonneg 2 (2 * (B / 2) - 1) ltac:(lia) ltac:(lia)).
    lia. }
  rewrite (Hcount n Hn).
  split.
  - intros He. apply Z.even_spec in He as [k Hk].
    assert (Hdiv : B / 2 = k).
    { rewrite Hk, Z.mul_comm. apply Z.div_mul. lia. }
    rewrite Hdiv in Hr, Hb.
    rewrite counted_bits_iff by lia.
    replace (B - 1) with (2 * k - 1) by lia.
    split; [tauto | intros H; split; [apply Hr | exact H]].
  - intros Ho. apply Z.odd_spec in Ho as [k Hk].
    assert (Hdiv : B / 2 = k).
    { rewrite Hk, Z.mul_comm, Z.div_add_l by lia.
      replace (1 / 2) with 0 by reflexivity. lia. }
    rewrite Hdiv in Hr, Hb.
    rewrite counted_bits_iff by lia.
    replace B with (2 * k + 1) by lia.
    split; [tauto | intros H; split; [exact H | apply Hr]].
Qed.

End BitLengthGate.

Section SizeThresholds.
Context `{BIP : Provider.BigIntegerProvider} `{PS : Provider.PrimeSource}.

(** Lower bounds on the two integers of a pass. *)
Lemma sampled_lower_bounds B (w : world) p q n phi w1 :
  Contract.prime_has_bits →
  1 ≤ B / 2 →
  Bundled.sample B w = (Ok (p, q, n, phi), w1) →
  2 ^ (B / 2) ≤ p ∧ 2 ^ (B / 2 - 1) ≤ q < 2 ^ (B / 2) ∧
  n = p * q ∧ phi = (p - 1) * (q - 1).
Proof.
  intros Hsize Hb
    (p' & q' & s1 & s2 & Hp & Hq & [= <- <- -> ->] & _)%sample_Ok.
  apply Hsize in Hp as [Hp _]; [| lia].
  apply Hsize in Hq as Hq; [| lia].
  replace (B / 2 + 1 - 1) with (B / 2) in Hp by lia. auto.
Qed.

(** With 2 or 3 bits asked for, no pass is let through. *)
Lemma tiny_size_never_accepted B (w : world) r w1 :
  Contract.prime_has_bits →
  Contract.gcd_is_gcd →
  B = 2 ∨ B = 3 →
  Bundled.sample B w = (Ok r, w1) → Bundled.again B r = true.
Proof.
  intros Hsize Hgcd HB Hs. destruct r as [[[p q] n] phi].
  assert (Hb : B / 2 = 1) by (destruct HB as [-> | ->]; reflexivity).
  apply sampled_lower_bounds in Hs as (_ & Hq & _ & ->); [| exact Hsize | lia].
  rewrite Hb in Hq. change (2 ^ (1 - 1)) with 1 in Hq.
  change (2 ^ 1) with 2 in Hq.
  assert (q = 1) as -> by lia.
  unfold Bundled.again, crypto.gcd. rewrite Hgcd.
  replace ((p - 1) * (1 - 1)) with 0 by lia.
  rewrite Z.gcd_0_l. cbn. now rewrite orb_true_r.
Qed.

Lemma tiny_size_loop fuel B (w : world) :
  Contract.prime_has_bits →
  Contract.gcd_is_gcd →
  B = 2 ∨ B = 3 →
  (do_while fuel (Bundled.sample B) (Bundled.again B) w).1 = Pending ∨
  ∃ bits, (do_while fuel (Bundled.sample B) (Bundled.again B) w).1
          = Throw (Failed (CallPrime bits)).
Proof.
  intros Hsize Hgcd HB.
  destruct (do_while fuel (Bundled.sample B) (Bundled.again B) w)
    as [[r | err |] w1] eqn:Hloop; cbn.
  - apply do_while_Ok in Hloop as (k & wk & _ & _ & Hs & Ha).
    rewrite (tiny_size_never_accepted B wk r w1 Hsize Hgcd HB Hs) in Ha.
    discriminate.
  - apply do_while_Throw in Hloop as [bits ->]. eauto.
  - now left.
Qed.

(** X13.  Asked for a 2-bit or 3-bit modulus, the generator never
    returns a key pair.  The second integer then has one bit, so it is
    1, the totient is 0, and [gcd(0, 65537)] is not 1: every pass is
    rejected.  The call stays pending or ends with the prime source's
    failure. *)
Theorem tiny_sizes_never_yield_a_key fuel B (w : world) :
  Contract.prime_has_bits →
  Contract.gcd_is_gcd →
  default 2048 B = 2 ∨ default 2048 B = 3 →
  result (Bundled.generateRandomKeys fuel B) w = Pending ∨
  ∃ bits, result (Bundled.generateRandomKeys fuel B) w
          = Throw (Failed (CallPrime bits)).
Proof.
  intros Hsize Hgcd HB. unfold result.
  pose proof (tiny_size_loop fuel (default 2048 B) w Hsize Hgcd HB) as Hl.
  destruct (Bundled.generateRandomKeys fuel B w) as [o w'] eqn:Hg.
  rewrite generateRandomKeys_unfold in Hg. unfold bind at 1 in Hg.
  destruct (do_while _ _ _ w) as [[r | err |] w1]; cbn in Hl.
  - destruct Hl as [Hl | [bits Hl]]; discriminate.
  - injection Hg as <- _. cbn.
    destruct Hl as [Hl | [bits Hl]]; [discriminate |].
    injection Hl as ->. eauto.
  - injection Hg as <- _. now left.
Qed.

(** X14.  From 4 bits on, the inversion after the loop cannot fail.
    When the prime source honours the requested sizes and [gcd] and
    [modInv] meet their contracts, for every requested size [B >= 4] the
    totient of an accepted pass is positive, so whenever the loop exits
    the call returns a key pair, and no run ends in a [modInv]
    failure. *)
Theorem inversion_never_fails_from_4_bits fuel B (w : world) :
  4 ≤ default 2048 B →
  Contract.gcd_is_gcd →
  Contract.modInv_inverts →
  Contract.prime_has_bits →
  (∀ r w1,
     do_while fuel (Bundled.sample (default 2048 B))
                   (Bundled.again (default 2048 B)) w = (Ok r, w1) →
     ∃ kp, result (Bundled.generateRandomKeys fuel B) w = Ok kp) ∧
  (∀ a m, result (Bundled.generateRandomKeys fuel B) w
            ≠ Throw (Failed (CallModInv a m))).
Proof.
  intros HB Hgcd [_ Hinv] Hsize.
  assert (Hb : 2 ≤ default 2048 B / 2) by (apply Z.div_le_lower_bound; lia).
  assert (Hgo : ∀ r w1,
     do_while fuel (Bundled.sample (default 2048 B))
                   (Bundled.again (default 2048 B)) w = (Ok r, w1) →
     ∃ kp, result (Bundled.generateRandomKeys fuel B) w = Ok kp).
  { intros r w1 Hloop. unfold result. rewrite generateRandomKeys_unfold.
    rewrite (bind_Ok _ _ _ _ _ Hloop).
    pose proof Hloop as (k & wk & _ & _ & Hs & Ha)%do_while_Ok.
    destruct r as [[[p q] n] phi].
    apply sampled_lower_bounds in Hs as (Hp & [Hq _] & -> & ->);
      [| exact Hsize | lia].
    apply again_false in Ha as (_ & _ & Hco).
    rewrite Hgcd, Z.gcd_comm in Hco.
    pose proof (Z.pow_le_mono_r 2 2 (default 2048 B / 2) ltac:(lia) Hb).
    pose proof (Z.pow_le_mono_r 2 1 (default 2048 B / 2 - 1)
                  ltac:(lia) ltac:(lia)).
    change (2 ^ 2) with 4 in *. change (2 ^ 1) with 2 in *.
    assert (Hphi : 0 < (p - 1) * (q - 1)) by nia.
    destruct (Hinv 65537 ((p - 1) * (q - 1)) Hphi Hco) as (d & Hd & _).
    cbv beta iota. unfold bind. rewrite modInv_run, Hd.
    cbv beta iota. rewrite construct_run. eauto. }
  split; [exact Hgo |].
  intros a m.
  destruct (do_while fuel (Bundled.sample (default 2048 B))
              (Bundled.again (default 2048 B)) w)
    as [[r | err |] w1] eqn:Hloop.
  - destruct (Hgo r w1 eq_refl) as [kp ->]. discriminate.
  - unfold result. rewrite generateRandomKeys_unfold.
    unfold bind at 1. rewrite Hloop. cbn [fst].
    apply do_while_Throw in Hloop as [bits ->]. discriminate.
  - unfold result. rewrite generateRandomKeys_unfold.
    unfold bind at 1. rewrite Hloop. discriminate.
Qed.

(** X15.  The public exponent is below the modulus only from 18 bits
    on.  When the prime source honours the requested sizes and
    [bitLength] counts bits, a key pair returned for a requested size
    [B >= 2] has the exponent 65537 and a modulus in [2^(B-1), 2^B): for
    [B >= 18] the exponent is smaller than the modulus, and for
    [B <= 16] the modulus is smaller than the exponent; the generator
    returns such keys all the same. *)
Theorem exponent_vs_modulus_by_size fuel B (w : world) kp w' :
  Contract.prime_has_bits →
  Contract.bitLength_counts_bits →
  2 ≤ default 2048 B →
  Bundled.generateRandomKeys fuel B w = (Ok kp, w') →
  ∃ pk, public_at w' (KeyPair.publicKey kp) pk ∧
        PublicKey.e pk = 65537 ∧
        2 ^ (default 2048 B - 1) ≤ PublicKey.n pk < 2 ^ default 2048 B ∧
        (18 ≤ default 2048 B → PublicKey.e pk < PublicKey.n pk) ∧
        (default 2048 B ≤ 16 → PublicKey.n pk < PublicKey.e pk).
Proof.
  intros Hsize Hcount HB
    (p & q & d & w1 & Hloop & _ & Hpk & _)%generateRandomKeys_Ok.
  assert (Hb : 1 ≤ default 2048 B / 2) by (apply Z.div_le_lower_bound; lia).
  pose proof (generated_accepted _ _ _ _ _ _ Hloop) as (_ & Hbits & _).
  apply do_while_Ok in Hloop as (k & wk & _ & _ & Hs & _).
  apply sampled_lower_bounds in Hs as (Hp & [Hq _] & _ & _);
    [| exact Hsize | exact Hb].
  pose proof (Z.pow_pos_nonneg 2 (default 2048 B / 2) ltac:(lia) ltac:(lia)).
  pose proof (Z.pow_pos_nonneg 2 (default 2048 B / 2 - 1)
                ltac:(lia) ltac:(lia)).
  assert (Hn : 0 < p * q) by nia.
  rewrite (Hcount _ Hn) in Hbits.
  apply log2_bits in Hbits; [| exact Hn].
  eexists. split; [exact Hpk |]. cbn.
  split; [reflexivity |]. split; [exact Hbits |]. split.
  - intros H18.
    pose proof (Z.pow_le_mono_r 2 17 (default 2048 B - 1)
                  ltac:(lia) ltac:(lia)).
    change (2 ^ 17) with 131072 in *. lia.
  - intros H16.
    pose proof (Z.pow_le_mono_r 2 (default 2048 B) 16 ltac:(lia) H16).
    change (2 ^ 16) with 65536 in *. lia.
Qed.

End SizeThresholds.

(* ================================================================== *)
(** * 24. These properties on concrete runs                            *)
(* ================================================================== *)

Section MoreRuns.
Import Reference.

(** Built from numbers, the key holds the same [bigint]s. *)
Lemma PublicKey_constructor_coerces_both_witness :
  ∃ ez nz, BigInt (VNumber 65537) = Ok ez ∧ BigInt (VNumber 55) = Ok nz ∧
    lone_key = with_public (start certified []) 1%positive
                 (PublicKey.make ez nz).
Proof.
  assert (H : @Bundled.PublicKey_new certified (VNumber 65537) (VNumber 55)
                (start certified []) = (Ok 1%positive, lone_key))
    by (vm_compute; reflexivity).
  exact (proj2 (proj1 (PublicKey_constructor_coerces_both (PS:=certified)
                         (VNumber 65537) (VNumber 55) (start certified []))
                  1%positive lone_key H)).
Defined.

(** A public key passed where a prime is expected. *)
Lemma PrivateKey_constructor_fails_cleanly_witness :
  @Bundled.PrivateKey_new certified (VBigInt 33) (VRef 1%positive) VNull VNull
    (VRef 1%positive) small_world
  = (Throw SyntaxError, small_world).
Proof.
  exact (proj2 (proj2 (PrivateKey_constructor_fails_cleanly (PS:=certified)
                         (VBigInt 33) (VRef 1%positive) VNull VNull
                         (VRef 1%positive) small_world))
           33 1%positive (OPublicKey small_public) eq_refl eq_refl
           small_run_public).
Defined.

(** The key built without a public key is unusable. *)
Lemma PrivateKey_without_publicKey_throws_witness :
  Bundled.PrivateKey_bitLength (BIP:=provider) 1%positive partial_key.2
    = (Throw TypeError, partial_key.2) ∧
  Bundled.PrivateKey_n 1%positive partial_key.2
    = (Throw TypeError, partial_key.2) ∧
  ∀ m, Bundled.PrivateKey_sign (BIP:=provider) 1%positive m partial_key.2
         = (Throw TypeError, partial_key.2) ∧
       Bundled.PrivateKey_decrypt (BIP:=provider) 1%positive m partial_key.2
         = (Throw TypeError, partial_key.2).
Proof.
  exact (PrivateKey_without_publicKey_throws (BIP:=provider) (PS:=certified)
           (VBigInt 5) (VBigInt 0) VUndefined (VNumber 7) VNull
           (start certified []) 1%positive partial_key.2
           (or_introl eq_refl) partial_key_returns).
Defined.

(** The generated private key reads 55 through its reference, and 91
    once the public key object holds 91. *)
Lemma private_accessors_read_through_reference_witness :
  Bundled.PrivateKey_n 2%positive small_world = (Ok 55, small_world) ∧
  Bundled.PrivateKey_n 2%positive
    (with_public small_world 1%positive (PublicKey.make 65537 91))
  = (Ok 91, with_public small_world 1%positive (PublicKey.make 65537 91)).
Proof.
  assert (Hsk : heap small_world !! 2%positive = Some (OPrivateKey small_private))
    by (vm_compute; reflexivity).
  destruct (private_accessors_read_through_reference (BIP:=provider)
              (PS:=certified) small_world 2%positive small_private
              1%positive small_public Hsk eq_refl small_run_public)
    as (Hn & _ & Hshared).
  split; [exact Hn |].
  exact (proj1 (Hshared (PublicKey.make 65537 91))).
Defined.

(** On the 6-bit key pair every integer comes back as its residue
    modulo 55. *)
Lemma generated_keys_round_trip_to_residue_witness :
  ∃ pk, public_at small_world 1%positive pk ∧ 1 < PublicKey.n pk ∧
    ∀ m : Z,
      result (bind (Bundled.PublicKey_encrypt (BIP:=provider) 1%positive m)
                   (Bundled.PrivateKey_decrypt (BIP:=provider) 2%positive))
             small_world
        = Ok (m `mod` PublicKey.n pk) ∧
      result (bind (Bundled.PrivateKey_sign (BIP:=provider) 2%positive m)
                   (Bundled.PublicKey_verify (BIP:=provider) 1%positive))
             small_world
        = Ok (m `mod` PublicKey.n pk).
Proof.
  exact (generated_keys_round_trip_to_residue (BIP:=provider) (PS:=certified)
           1 (Some 6) (start certified [11; 5])
           (KeyPair.make 1%positive 2%positive) small_world
           reference_gcd reference_modInv reference_modPow
           certified_is_prime small_run_returns).
Defined.

Lemma prime_11 : Z.prime 11.
Proof. apply is_prime_sound. vm_compute. reflexivity. Qed.

Lemma prime_5 : Z.prime 5.
Proof. apply is_prime_sound. vm_compute. reflexivity. Qed.

(** The pair rebuilt from [e = 3], [n = 55], [d = 27]. *)
Lemma reconstructed_keys_round_trip_witness :
  ∃ kp w',
    @reconstruct certified (VBigInt 3) (VBigInt (11 * 5)) (VBigInt 27)
      (start certified []) = (Ok kp, w') ∧
    private_at w' (KeyPair.privateKey kp)
      (PrivateKey.make 27 None None None (VRef (KeyPair.publicKey kp)))
      (PublicKey.make 3 (11 * 5)) ∧
    ∀ m : Z,
      result (bind (Bundled.PublicKey_encrypt (BIP:=provider)
                      (KeyPair.publicKey kp) m)
                   (Bundled.PrivateKey_decrypt (BIP:=provider)
                      (KeyPair.privateKey kp))) w'
        = Ok (m `mod` (11 * 5)) ∧
      result (bind (Bundled.PrivateKey_sign (BIP:=provider)
                      (KeyPair.privateKey kp) m)
                   (Bundled.PublicKey_verify (BIP:=provider)
                      (KeyPair.publicKey kp))) w'
        = Ok (m `mod` (11 * 5)).
Proof.
  apply (reconstructed_keys_round_trip (BIP:=provider) (PS:=certified)
           3 27 11 5 (start certified []) reference_modPow prime_11 prime_5).
  - lia.
  - lia.
  - lia.
  - reflexivity.
Defined.

Lemma small_run_holds : holds Encrypt small_world 1%positive 65537 55.
Proof. exists small_public. split; [exact small_run_public | split; reflexivity]. Qed.

(** Encrypting 6 = 2 * 3 with the 6-bit key. *)
Lemma keyed_operations_are_multiplicative_witness :
  ∃ ca cb,
    result (perform (BIP:=provider) Encrypt 1%positive 2) small_world = Ok ca ∧
    result (perform (BIP:=provider) Encrypt 1%positive 3) small_world = Ok cb ∧
    result (perform (BIP:=provider) Encrypt 1%positive (2 * 3)) small_world
      = Ok ((ca * cb) `mod` 55).
Proof.
  apply (keyed_operations_are_multiplicative (BIP:=provider) (PS:=certified)
           Encrypt small_world 1%positive 65537 55 2 3
           reference_modPow small_run_holds).
  - lia.
  - lia.
Defined.

(** 0, 1 and 54 under the 6-bit key. *)
Lemma keyed_operations_fix_trivial_operands_witness :
  result (perform (BIP:=provider) Encrypt 1%positive 0) small_world = Ok 0 ∧
  result (perform (BIP:=provider) Encrypt 1%positive 1) small_world = Ok 1 ∧
  result (perform (BIP:=provider) Encrypt 1%positive (55 - 1)) small_world
    = Ok (55 - 1).
Proof.
  destruct (keyed_operations_fix_trivial_operands (BIP:=provider)
              (PS:=certified) Encrypt small_world 1%positive 65537 55
              reference_modPow small_run_holds ltac:(lia) ltac:(lia))
    as (H0 & H1 & Hn).
  split; [exact H0 |]. split; [exact H1 |]. exact (Hn eq_refl).
Defined.

Lemma dry_run_rejects :
  @Bundled.generateRandomKeys provider certified 1 (Some 6)
    (start certified [11])
  = (Throw (Failed (CallPrime 3)), dry_run.2).
Proof. vm_compute. reflexivity. Qed.

(** The run whose source runs dry leaves an empty heap. *)
Lemma generation_failure_leaves_no_key_witness :
  heap dry_run.2 = heap (start certified [11]) ∧
  (Failed (CallPrime 3) = Failed (CallPrime (default 2048 (Some 6) / 2 + 1)) ∨
   Failed (CallPrime 3) = Failed (CallPrime (default 2048 (Some 6) / 2)) ∨
   ∃ p q, Failed (CallPrime 3) = Failed (CallModInv 65537 ((p - 1) * (q - 1))) ∧
          modInv 65537 ((p - 1) * (q - 1)) = None ∧
          Bundled.again (BIP:=provider) (default 2048 (Some 6))
            (p, q, p * q, (p - 1) * (q - 1)) = false).
Proof.
  exact (proj1 (generation_failure_leaves_no_key (BIP:=provider)
                  (PS:=certified) 1 (Some 6) (start certified [11]))
           (Failed (CallPrime 3)) dry_run.2 dry_run_rejects).
Defined.

(** A second generation in the world of the first key pair. *)
Lemma generation_preserves_existing_keys_witness :
  holds Encrypt
    (@Bundled.generateRandomKeys provider certified 1 (Some 6)
       refilled_world).2 1%positive 65537 55 ∧
  ∀ x, result (perform (BIP:=provider) Encrypt 1%positive x)
         (@Bundled.generateRandomKeys provider certified 1 (Some 6)
            refilled_world).2
       = result (perform (BIP:=provider) Encrypt 1%positive x) refilled_world.
Proof.
  apply (generation_preserves_existing_keys (BIP:=provider) (PS:=certified)
           1 (Some 6) refilled_world Encrypt 1%positive 65537 55).
  exists small_public. split; [| split; reflexivity].
  vm_compute. reflexivity.
Defined.

(** The 6-bit key pair stores 11 and 5 in that order. *)
Lemma sampled_primes_are_ordered_witness :
  ∃ sk pk p q,
    private_at small_world 2%positive sk pk ∧
    PrivateKey._p sk = Some p ∧ PrivateKey._q sk = Some q ∧
    0 < q < p ∧ PublicKey.n pk = p * q.
Proof.
  assert (HB : 2 ≤ default 2048 (Some 6)) by (cbn; lia).
  exact (proj2 (sampled_primes_are_ordered (BIP:=provider) (PS:=certified)
                  (Some 6) certified_has_bits HB)
           1%nat (start certified [11; 5])
           (KeyPair.make 1%positive 2%positive) small_world
           small_run_returns).
Defined.

Lemma rejected_pass :
  @Bundled.sample certified 6 (start certified [13; 7])
  = (Ok (13, 7, 91, 72), (@Bundled.sample certified 6 (start certified [13; 7])).2).
Proof. vm_compute. reflexivity. Qed.

(** The pass 13 * 7 = 91: seven bits where six were asked for. *)
Lemma bit_length_gate_misses_by_one_bit_witness :
  2 ^ (2 * (6 / 2) - 1) ≤ 91 < 2 ^ (2 * (6 / 2) + 1) ∧
  (Z.even 6 = true → (bitLength 91 = 6 ↔ 91 < 2 ^ 6)) ∧
  (Z.odd 6 = true → (bitLength 91 = 6 ↔ 2 ^ (6 - 1) ≤ 91)).
Proof.
  apply (bit_length_gate_misses_by_one_bit (BIP:=provider) (PS:=certified)
           6 (start certified [13; 7]) 13 7 91 72
           (@Bundled.sample certified 6 (start certified [13; 7])).2
           certified_has_bits reference_bitLength).
  - vm_compute. discriminate.
  - exact rejected_pass.
Defined.

Lemma tiny_run_pending : tiny_run.1 = Pending.
Proof. vm_compute. reflexivity. Qed.

(** Three passes for a 2-bit modulus, all rejected. *)
Lemma tiny_sizes_never_yield_a_key_witness :
  result (@Bundled.generateRandomKeys provider sized 3 (Some 2))
    (start sized [3; 1; 3; 1; 3; 1]) = Pending ∨
  ∃ bits, result (@Bundled.generateRandomKeys provider sized 3 (Some 2))
            (start sized [3; 1; 3; 1; 3; 1])
          = Throw (Failed (CallPrime bits)).
Proof.
  apply (tiny_sizes_never_yield_a_key (BIP:=provider) (PS:=sized)
           3 (Some 2) (start sized [3; 1; 3; 1; 3; 1])
           sized_has_bits reference_gcd).
  left. reflexivity.
Defined.

Lemma small_loop_exits :
  do_while 1 (@Bundled.sample certified (default 2048 (Some 6)))
    (@Bundled.again provider (default 2048 (Some 6)))
    (start certified [11; 5])
  = (Ok (11, 5, 55, 40),
     (@Bundled.sample certified 6 (start certified [11; 5])).2).
Proof. vm_compute. reflexivity. Qed.

(** The 6-bit request: the loop exits and the call returns. *)
Lemma inversion_never_fails_from_4_bits_witness :
  ∃ kp, result (@Bundled.generateRandomKeys provider certified 1 (Some 6))
          (start certified [11; 5]) = Ok kp.
Proof.
  assert (HB : 4 ≤ default 2048 (Some 6)) by (cbn; lia).
  exact (proj1 (inversion_never_fails_from_4_bits (BIP:=provider)
                  (PS:=certified) 1 (Some 6) (start certified [11; 5])
                  HB reference_gcd reference_modInv certified_has_bits)
           _ _ small_loop_exits).
Defined.

(** The 6-bit key pair: a modulus of 55 under the exponent 65537. *)
Lemma exponent_vs_modulus_by_size_witness :
  ∃ pk, public_at small_world 1%positive pk ∧
        PublicKey.e pk = 65537 ∧
        2 ^ (default 2048 (Some 6) - 1) ≤ PublicKey.n pk
          < 2 ^ default 2048 (Some 6) ∧
        (18 ≤ default 2048 (Some 6) → PublicKey.e pk < PublicKey.n pk) ∧
        (default 2048 (Some 6) ≤ 16 → PublicKey.n pk < PublicKey.e pk).
Proof.
  assert (HB : 2 ≤ default 2048 (Some 6)) by (cbn; lia).
  exact (exponent_vs_modulus_by_size (BIP:=provider) (PS:=certified)
           1 (Some 6) (start certified [11; 5])
           (KeyPair.make 1%positive 2%positive) small_world
           certified_has_bits reference_bitLength HB small_run_returns).
Defined.

End MoreRuns.
